(** * Argument builders and process invokers of the dirsearch and nmap MCP servers

    A shallow embedding of [dirsearch-mcp-server.py] and [nmap-mcp-server.py].

    - Python [str] values are [string]s; a value of type [str | None] is an
      [option string]; an [int | None] is an [option Z].
    - A keyword parameter with a default is a [kwarg]: either [Omitted] (the
      default of the signature applies) or [Given v].
    - A command line is a list of tokens; a token is an [option string]
      because a [None] parameter can be placed in the list as it is.
    - Effects (spawning the external binary, the temporary directory, reading
      the report) are threaded through an explicit [world] in a state and
      exception monad. *)

From Stdlib Require Import String Ascii List ZArith Bool Lia DecimalString.
Import ListNotations.
Open Scope string_scope.
Open Scope list_scope.

Set Implicit Arguments.

(** ** Python values *)

Inductive kwarg (A : Type) : Type :=
| Omitted
| Given (a : A).
Arguments Omitted {A}.
Arguments Given {A} a.

(** Binding of a keyword parameter: the supplied value, else the default. *)
Definition or_default {A : Type} (k : kwarg A) (d : A) : A :=
  match k with
  | Omitted => d
  | Given a => a
  end.

(** [str(n)] on an [int]. *)
Definition str_int (n : Z) : string := NilZero.string_of_int (Z.to_int n).

(** [f"{v}"] on a [str | None]. *)
Definition format_opt (v : option string) : string :=
  match v with
  | Some s => s
  | None => "None"
  end.

(** Truth value of an [int | None]: [None] and [0] are falsy. *)
Definition truthy_int (v : option Z) : bool :=
  match v with
  | Some n => negb (Z.eqb n 0)
  | None => false
  end.

(** Truth value of a [str | None]: [None] and [""] are falsy. *)
Definition truthy_str (v : option string) : bool :=
  match v with
  | Some s => negb (String.eqb s "")
  | None => false
  end.

(** [a or b] on strings. *)
Definition str_or (a b : string) : string :=
  if String.eqb a "" then b else a.

Definition token : Type := option string.

Definition token_eqb (a b : token) : bool :=
  match a, b with
  | Some x, Some y => String.eqb x y
  | None, None => true
  | _, _ => false
  end.

(** Exceptions the two servers can let escape. *)
Inductive exn : Type :=
| ValueError (msg : string)
| RuntimeError (msg : string)
| TypeError (msg : string)
| FileNotFoundError (path : string)
| IsADirectoryError (path : string)
| FileExistsError (msg : string).

Inductive outcome (A : Type) : Type :=
| Return (a : A)
| Raise (e : exn).
Arguments Return {A} a.
Arguments Raise {A} e.

(** ** [shlex.split]

    The standard library's lexer as the two servers call it:
    [shlex.split(s)] is [list(shlex(s, posix=True))] with
    [whitespace_split = True] and [commenters = ''].  Under these settings
    [punctuation_chars] is empty and nothing is ever pushed back.

    The lexer's [state] attribute is a character or [None]; the values it
    takes are named by [lexstate].  Every character the lexer treats
    specially is ASCII, so splitting a UTF-8 byte string and splitting the
    string of code points cut at the same places. *)
Module Shlex.

Inductive lexstate : Type :=
| AtEof                 (* state is None *)
| InSpace               (* state == ' ' *)
| InWord                (* state == 'a' *)
| InQuote (q : ascii)   (* state in quotes *)
| InEscape (e : ascii). (* state in escape *)

Definition whitespace : list ascii :=
  [" "; "009"; "013"; "010"]%char.
Definition dquote : ascii := "034"%char. (* the double quote *)
Definition quotes : list ascii := ["'"%char; dquote].
Definition escape : list ascii := ["\"]%char.
Definition escapedquotes : list ascii := [dquote].
Definition wordchars : list ascii :=
  list_ascii_of_string
    "abcdfeghijklmnopqrstuvwxyzABCDEFGHIJKLMNOPQRSTUVWXYZ0123456789_".

(** [c in s] *)
Definition mem (c : ascii) (s : list ascii) : bool :=
  existsb (Ascii.eqb c) s.

(** [self.token += nextchar] *)
Definition push (tok : string) (c : ascii) : string :=
  tok ++ String c "".

(** [state in self.quotes], used on [escapedstate]. *)
Definition is_quote_state (st : lexstate) : bool :=
  match st with
  | InQuote q => mem q quotes
  | _ => false
  end.

(** [nextchar != escapedstate] *)
Definition differs_from_state (c : ascii) (st : lexstate) : bool :=
  match st with
  | InQuote q => negb (Ascii.eqb c q)
  | InEscape e => negb (Ascii.eqb c e)
  | InSpace => negb (Ascii.eqb c " ")
  | InWord => negb (Ascii.eqb c "a")
  | AtEof => true
  end.

(** What one run of the [while True] loop of [read_token] leaves behind when
    it breaks: the accumulated token, the [quoted] flag, the lexer state and
    the unread input. *)
Record broke : Type := Broke {
  b_token : string;
  b_quoted : bool;
  b_state : lexstate;
  b_rest : list ascii
}.

(** The loop of [read_token].  Each iteration reads one character of
    [instream] ([[]] is the empty read at end of input). *)
Fixpoint read_loop (instream : list ascii) (state : lexstate) (tok : string)
    (quoted : bool) (escapedstate : lexstate) : outcome broke :=
  match instream with
  | [] =>
      match state with
      | AtEof => Return (Broke "" quoted AtEof [])
      | InSpace => Return (Broke tok quoted AtEof [])
      | InQuote _ => Raise (ValueError "No closing quotation")
      | InEscape _ => Raise (ValueError "No escaped character")
      | InWord => Return (Broke tok quoted AtEof [])
      end
  | nextchar :: rest =>
      match state with
      | AtEof => Return (Broke "" quoted AtEof rest)
      | InSpace =>
          if mem nextchar whitespace then
            if negb (String.eqb tok "") || quoted
            then Return (Broke tok quoted InSpace rest)
            else read_loop rest InSpace tok quoted escapedstate
          else if mem nextchar escape then
            read_loop rest (InEscape nextchar) tok quoted InWord
          else if mem nextchar wordchars then
            read_loop rest InWord (String nextchar "") quoted escapedstate
          else if mem nextchar quotes then
            read_loop rest (InQuote nextchar) tok quoted escapedstate
          else (* whitespace_split *)
            read_loop rest InWord (String nextchar "") quoted escapedstate
      | InQuote q =>
          if Ascii.eqb nextchar q then
            read_loop rest InWord tok true escapedstate
          else if mem nextchar escape && mem q escapedquotes then
            read_loop rest (InEscape nextchar) tok true (InQuote q)
          else
            read_loop rest (InQuote q) (push tok nextchar) true escapedstate
      | InEscape e =>
          let tok' :=
            if is_quote_state escapedstate
               && negb (Ascii.eqb nextchar e)
               && differs_from_state nextchar escapedstate
            then push tok e else tok in
          read_loop rest escapedstate (push tok' nextchar) quoted escapedstate
      | InWord =>
          if mem nextchar whitespace then
            if negb (String.eqb tok "") || quoted
            then Return (Broke tok quoted InSpace rest)
            else read_loop rest InSpace tok quoted escapedstate
          else if mem nextchar quotes then
            read_loop rest (InQuote nextchar) tok quoted escapedstate
          else if mem nextchar escape then
            read_loop rest (InEscape nextchar) tok quoted InWord
          else (* wordchars, or whitespace_split *)
            read_loop rest InWord (push tok nextchar) quoted escapedstate
      end
  end.

(** [read_token]: [quoted = False], [escapedstate = ' '], the token starts
    empty; an empty unquoted result is [None]. *)
Definition read_token (instream : list ascii) (state : lexstate)
  : outcome (option string * lexstate * list ascii) :=
  match read_loop instream state "" false InSpace with
  | Raise e => Raise e
  | Return b =>
      let result :=
        if negb (b_quoted b) && String.eqb (b_token b) ""
        then None else Some (b_token b) in
      Return (result, b_state b, b_rest b)
  end.

(** [list(lex)]: [__next__] until [get_token] gives [eof] ([None]).  The
    iteration count is bounded by [fuel]; [None] means the bound was hit. *)
Fixpoint tokens (fuel : nat) (instream : list ascii) (state : lexstate)
  : option (outcome (list string)) :=
  match fuel with
  | O => None
  | S fuel' =>
      match read_token instream state with
      | Raise e => Some (Raise e)
      | Return (None, _, _) => Some (Return [])
      | Return (Some t, state', rest) =>
          match tokens fuel' rest state' with
          | None => None
          | Some (Raise e) => Some (Raise e)
          | Some (Return ts) => Some (Return (t :: ts))
          end
      end
  end.

(** Every token but the last consumes a character, and the call after the
    last one returns [None]: [length s + 2] calls are enough
    (lemma [tokens_enough] below). *)
Definition split (s : string) : outcome (list string) :=
  let instream := list_ascii_of_string s in
  match tokens (length instream + 2) instream InSpace with
  | Some r => r
  | None => Return []
  end.

End Shlex.

(** ** The world outside the interpreter *)

Inductive node : Type :=
| Dir
| File (text : string).

Definition filesystem : Type := string -> option node.

(** [spawned] lists, oldest first, the command lines for which a child
    process was started. *)
Record world : Type := World {
  fs : filesystem;
  spawned : list (list string)
}.

(** [subprocess.CompletedProcess] with [capture_output=True, text=True]. *)
Record completed : Type := Completed {
  returncode : Z;
  stdout : string;
  stderr : string
}.

(** What the host does, and is not decided by the servers:
    - [exec argv fs]: starting [argv] as a child process and waiting for it;
      [None] when the program cannot be started, else what the child left
      behind (exit status, captured streams, the file system as it changed it);
    - [mkdtemp fs]: the path [tempfile.mkdtemp()] picks for a new directory,
      [None] when it finds no usable name. *)
Class Host : Type := {
  exec : list string -> filesystem -> option (completed * filesystem);
  mkdtemp : filesystem -> option string
}.

(** State and exception monad over the world. *)
Definition M (A : Type) : Type := world -> outcome A * world.

Definition ret {A : Type} (a : A) : M A := fun w => (Return a, w).

Definition raise {A : Type} (e : exn) : M A := fun w => (Raise e, w).

Definition bind {A B : Type} (m : M A) (k : A -> M B) : M B :=
  fun w =>
    match m w with
    | (Return a, w') => k a w'
    | (Raise e, w') => (Raise e, w')
    end.

(** A pure computation that may raise, run inside [M]. *)
Definition lift {A : Type} (o : outcome A) : M A := fun w => (o, w).

Notation "x <- m ;; k" := (bind m (fun x => k))
  (at level 61, m at next level, right associativity).

(** The strings of a command line, if none of its tokens is [None]. *)
Fixpoint all_str (argv : list token) : option (list string) :=
  match argv with
  | [] => Some []
  | None :: _ => None
  | Some s :: argv' =>
      match all_str argv' with
      | Some ss => Some (s :: ss)
      | None => None
      end
  end.

Section Runtime.
Context {host : Host}.

(** [subprocess.run(argv, capture_output=True, text=True, check=False)].
    A [None] among the arguments is rejected before any process exists. *)
Definition subprocess_run (argv : list token) : M completed :=
  fun w =>
    match all_str argv with
    | None =>
        (Raise (TypeError "expected str, bytes or os.PathLike object, not NoneType"), w)
    | Some cmd =>
        match exec cmd (fs w) with
        | None => (Raise (FileNotFoundError (hd "" cmd)), w)
        | Some (result, fs') =>
            (Return result, World fs' (spawned w ++ [cmd]))
        end
    end.

(** [path.endswith("/")] *)
Fixpoint ends_with_sep (path : string) : bool :=
  match path with
  | EmptyString => false
  | String c EmptyString => Ascii.eqb c "/"
  | String _ path' => ends_with_sep path'
  end.

(** [os.path.join(a, b)] of [posixpath]. *)
Definition os_path_join (a b : string) : string :=
  if String.prefix "/" b then b
  else if String.eqb a "" || ends_with_sep a then a ++ b
  else a ++ "/" ++ b.

(** [p] is the directory [d] or lies below it. *)
Definition within (d p : string) : bool :=
  String.eqb p d || String.prefix (os_path_join d "") p.

(** [shutil.rmtree(d)] *)
Definition rmtree (d : string) (f : filesystem) : filesystem :=
  fun p => if within d p then None else f p.

Definition mkdir (d : string) (f : filesystem) : filesystem :=
  fun p => if String.eqb p d then Some Dir else f p.

(** [with tempfile.TemporaryDirectory() as tmp: body]: the directory is
    created, [body] runs, and [__exit__] removes the tree whether [body]
    returned or raised. *)
Definition with_TemporaryDirectory {A : Type} (body : string -> M A) : M A :=
  fun w =>
    match mkdtemp (fs w) with
    | None =>
        (Raise (FileExistsError "No usable temporary directory name found"), w)
    | Some tmp =>
        let '(r, w') := body tmp (World (mkdir tmp (fs w)) (spawned w)) in
        (r, World (rmtree tmp (fs w')) (spawned w'))
    end.

(** [with open(path, "r", encoding="utf-8") as fh: return fh.read()];
    a file's content is kept as the text such a read gives. *)
Definition read_text (path : string) : M string :=
  fun w =>
    match fs w path with
    | Some (File text) => (Return text, w)
    | Some Dir => (Raise (IsADirectoryError path), w)
    | None => (Raise (FileNotFoundError path), w)
    end.

End Runtime.

Definition newline : string := String "010" "".

(** [str(threads)] on an [int | None]. *)
Definition str_int_opt (v : option Z) : string :=
  match v with
  | Some n => str_int n
  | None => "None"
  end.

(** ** dirsearch-mcp-server.py *)
Module Dirsearch.
Section Server.
Context {host : Host}.

Definition _run_dirsearch (args : list token) : M string :=
  result <- subprocess_run (Some "dirsearch" :: args) ;;
  if negb (returncode result =? 0)%Z then
    raise (RuntimeError
             ("dirsearch exited with " ++ str_int (returncode result) ++ ":"
              ++ newline ++ str_or (stderr result) (stdout result)))
  else ret (stdout result).

Definition _base_args (threads : kwarg (option Z)) (include_errors : kwarg bool)
  : list token :=
  let threads := or_default threads (Some 20%Z) in
  let include_errors := or_default include_errors false in
  let args := [Some "-q"] in
  let args :=
    if truthy_int threads
    then args ++ [Some "-t"; Some (str_int_opt threads)] else args in
  let args :=
    if negb include_errors
    then args ++ [Some "--include-status"; Some "200-399"] else args in
  args.

Definition common_extensions : option string :=
  Some "php,asp,aspx,jsp,html,js,txt".

(** For each tool, [<tool>_args] is the list the body hands to
    [_run_dirsearch], over the parameters as bound by the call. *)

Definition quick_scan_args (url : string) (extensions : option string)
    (threads : option Z) (show_errors : bool) : list token :=
  _base_args (Given threads) (Given show_errors)
  ++ [Some "-u"; Some url; Some "-e"; extensions].

Definition quick_scan (url : string) (extensions : kwarg (option string))
    (threads : kwarg (option Z)) (show_errors : kwarg bool) : M string :=
  _run_dirsearch
    (quick_scan_args url (or_default extensions common_extensions)
       (or_default threads (Some 20%Z)) (or_default show_errors false)).

Definition recursive_scan_args (url : string) (extensions : option string)
    (max_depth : option Z) (threads : option Z) (show_errors : bool)
  : list token :=
  let args :=
    _base_args (Given threads) (Given show_errors)
    ++ [Some "-u"; Some url; Some "-e"; extensions; Some "-r"] in
  match max_depth with
  | Some d => args ++ [Some "-R"; Some (str_int d)]
  | None => args
  end.

Definition recursive_scan (url : string) (extensions : kwarg (option string))
    (max_depth : kwarg (option Z)) (threads : kwarg (option Z))
    (show_errors : kwarg bool) : M string :=
  _run_dirsearch
    (recursive_scan_args url (or_default extensions common_extensions)
       (or_default max_depth (Some 3%Z)) (or_default threads (Some 20%Z))
       (or_default show_errors false)).

Definition deep_recursive_scan_args (url : string) (extensions : option string)
    (threads : option Z) (show_errors : bool) : list token :=
  _base_args (Given threads) (Given show_errors)
  ++ [Some "-u"; Some url; Some "-e"; extensions; Some "--deep-recursive"].

Definition deep_recursive_scan (url : string)
    (extensions : kwarg (option string)) (threads : kwarg (option Z))
    (show_errors : kwarg bool) : M string :=
  _run_dirsearch
    (deep_recursive_scan_args url (or_default extensions common_extensions)
       (or_default threads (Some 40%Z)) (or_default show_errors false)).

Definition subdirs_scan_args (url subdirs : string)
    (extensions : option string) (threads : option Z) (show_errors : bool)
  : list token :=
  _base_args (Given threads) (Given show_errors)
  ++ [Some "-u"; Some url; Some "-e"; extensions; Some "--subdirs"; Some subdirs].

Definition subdirs_scan (url subdirs : string)
    (extensions : kwarg (option string)) (threads : kwarg (option Z))
    (show_errors : kwarg bool) : M string :=
  _run_dirsearch
    (subdirs_scan_args url subdirs (or_default extensions common_extensions)
       (or_default threads (Some 20%Z)) (or_default show_errors false)).

Definition wordlist_scan_args (url wordlists : string)
    (extensions : option string) (threads : option Z) (show_errors : bool)
  : list token :=
  let args :=
    _base_args (Given threads) (Given show_errors)
    ++ [Some "-u"; Some url; Some "-w"; Some wordlists] in
  if truthy_str extensions then args ++ [Some "-e"; extensions] else args.

Definition wordlist_scan (url wordlists : string)
    (extensions : kwarg (option string)) (threads : kwarg (option Z))
    (show_errors : kwarg bool) : M string :=
  _run_dirsearch
    (wordlist_scan_args url wordlists (or_default extensions (Some ""))
       (or_default threads (Some 20%Z)) (or_default show_errors false)).

Definition json_report_scan_args (tmp : string) (url : string)
    (extensions : option string) (threads : option Z) (show_errors : bool)
  : list token :=
  let report_path := os_path_join tmp "report.json" in
  _base_args (Given threads) (Given show_errors)
  ++ [Some "-u"; Some url; Some "-e"; extensions;
      Some "--format"; Some "json"; Some "-o"; Some report_path].

Definition json_report_scan (url : string) (extensions : kwarg (option string))
    (threads : kwarg (option Z)) (show_errors : kwarg bool) : M string :=
  with_TemporaryDirectory (fun tmp =>
    let report_path := os_path_join tmp "report.json" in
    _ <- _run_dirsearch
           (json_report_scan_args tmp url
              (or_default extensions common_extensions)
              (or_default threads (Some 20%Z)) (or_default show_errors false)) ;;
    read_text report_path).

Definition proxy_scan_args (url proxy : string) (extensions : option string)
    (threads : option Z) (show_errors : bool) : list token :=
  _base_args (Given threads) (Given show_errors)
  ++ [Some "-u"; Some url; Some "-e"; extensions; Some "--proxy"; Some proxy].

Definition proxy_scan (url proxy : string) (extensions : kwarg (option string))
    (threads : kwarg (option Z)) (show_errors : kwarg bool) : M string :=
  _run_dirsearch
    (proxy_scan_args url proxy (or_default extensions common_extensions)
       (or_default threads (Some 20%Z)) (or_default show_errors false)).

Definition authenticated_scan_args (url auth_cred auth_type : string)
    (extensions : option string) (threads : option Z) : list token :=
  _base_args (Given threads) (Given true)
  ++ [Some "-u"; Some url; Some "-e"; extensions;
      Some "--auth"; Some auth_cred; Some "--auth-type"; Some auth_type].

Definition authenticated_scan (url auth_cred : string)
    (auth_type : kwarg string) (extensions : kwarg (option string))
    (threads : kwarg (option Z)) : M string :=
  _run_dirsearch
    (authenticated_scan_args url auth_cred (or_default auth_type "basic")
       (or_default extensions common_extensions)
       (or_default threads (Some 20%Z))).

(** The argument of [_run_dirsearch] in [custom_scan] is evaluated before the
    call: [shlex.split] may raise instead of giving a list. *)
Definition custom_scan_args (url extra_args : string) : outcome (list token) :=
  match Shlex.split extra_args with
  | Raise e => Raise e
  | Return extra =>
      Return (_base_args Omitted (Given true) ++ [Some "-u"; Some url]
              ++ map Some extra)
  end.

Definition custom_scan (url extra_args : string) : M string :=
  args <- lift (custom_scan_args url extra_args) ;;
  _run_dirsearch args.

(** The registry of [@mcp.tool()] functions: a call names a tool and gives
    its positional parameters and whichever keyword parameters it sets. *)
Inductive call : Type :=
| Quick_scan (url : string) (extensions : kwarg (option string))
    (threads : kwarg (option Z)) (show_errors : kwarg bool)
| Recursive_scan (url : string) (extensions : kwarg (option string))
    (max_depth : kwarg (option Z)) (threads : kwarg (option Z))
    (show_errors : kwarg bool)
| Deep_recursive_scan (url : string) (extensions : kwarg (option string))
    (threads : kwarg (option Z)) (show_errors : kwarg bool)
| Subdirs_scan (url subdirs : string) (extensions : kwarg (option string))
    (threads : kwarg (option Z)) (show_errors : kwarg bool)
| Wordlist_scan (url wordlists : string) (extensions : kwarg (option string))
    (threads : kwarg (option Z)) (show_errors : kwarg bool)
| Json_report_scan (url : string) (extensions : kwarg (option string))
    (threads : kwarg (option Z)) (show_errors : kwarg bool)
| Proxy_scan (url proxy : string) (extensions : kwarg (option string))
    (threads : kwarg (option Z)) (show_errors : kwarg bool)
| Authenticated_scan (url auth_cred : string) (auth_type : kwarg string)
    (extensions : kwarg (option string)) (threads : kwarg (option Z))
| Custom_scan (url extra_args : string).

Definition invoke (c : call) : M string :=
  match c with
  | Quick_scan url e t s => quick_scan url e t s
  | Recursive_scan url e d t s => recursive_scan url e d t s
  | Deep_recursive_scan url e t s => deep_recursive_scan url e t s
  | Subdirs_scan url sub e t s => subdirs_scan url sub e t s
  | Wordlist_scan url wl e t s => wordlist_scan url wl e t s
  | Json_report_scan url e t s => json_report_scan url e t s
  | Proxy_scan url px e t s => proxy_scan url px e t s
  | Authenticated_scan url cred ty e t => authenticated_scan url cred ty e t
  | Custom_scan url extra => custom_scan url extra
  end.

(** The argument list a call builds for [_run_dirsearch]; [tmp] is the
    temporary directory of the call, which only [json_report_scan] has. *)
Definition built (tmp : string) (c : call) : outcome (list token) :=
  match c with
  | Quick_scan url e t s =>
      Return (quick_scan_args url (or_default e common_extensions)
                (or_default t (Some 20%Z)) (or_default s false))
  | Recursive_scan url e d t s =>
      Return (recursive_scan_args url (or_default e common_extensions)
                (or_default d (Some 3%Z)) (or_default t (Some 20%Z))
                (or_default s false))
  | Deep_recursive_scan url e t s =>
      Return (deep_recursive_scan_args url (or_default e common_extensions)
                (or_default t (Some 40%Z)) (or_default s false))
  | Subdirs_scan url sub e t s =>
      Return (subdirs_scan_args url sub (or_default e common_extensions)
                (or_default t (Some 20%Z)) (or_default s false))
  | Wordlist_scan url wl e t s =>
      Return (wordlist_scan_args url wl (or_default e (Some ""))
                (or_default t (Some 20%Z)) (or_default s false))
  | Json_report_scan url e t s =>
      Return (json_report_scan_args tmp url (or_default e common_extensions)
                (or_default t (Some 20%Z)) (or_default s false))
  | Proxy_scan url px e t s =>
      Return (proxy_scan_args url px (or_default e common_extensions)
                (or_default t (Some 20%Z)) (or_default s false))
  | Authenticated_scan url cred ty e t =>
      Return (authenticated_scan_args url cred (or_default ty "basic")
                (or_default e common_extensions) (or_default t (Some 20%Z)))
  | Custom_scan url extra => custom_scan_args url extra
  end.

(** The value the [threads] parameter of [_base_args] is bound to. *)
Definition threads_of (c : call) : option Z :=
  match c with
  | Quick_scan _ _ t _ | Recursive_scan _ _ _ t _ | Subdirs_scan _ _ _ t _
  | Wordlist_scan _ _ _ t _ | Json_report_scan _ _ t _ | Proxy_scan _ _ _ t _
  | Authenticated_scan _ _ _ _ t => or_default t (Some 20%Z)
  | Deep_recursive_scan _ _ t _ => or_default t (Some 40%Z)
  | Custom_scan _ _ => or_default Omitted (Some 20%Z)
  end.

(** The [threads] keyword of a call as the caller set it ([custom_scan]
    has none), a call with it set to [t], and the signature's default. *)
Definition threads_kwarg (c : call) : kwarg (option Z) :=
  match c with
  | Quick_scan _ _ t _ | Recursive_scan _ _ _ t _ | Subdirs_scan _ _ _ t _
  | Wordlist_scan _ _ _ t _ | Json_report_scan _ _ t _ | Proxy_scan _ _ _ t _
  | Authenticated_scan _ _ _ _ t | Deep_recursive_scan _ _ t _ => t
  | Custom_scan _ _ => Omitted
  end.

Definition set_threads (t : kwarg (option Z)) (c : call) : call :=
  match c with
  | Quick_scan url e _ s => Quick_scan url e t s
  | Recursive_scan url e d _ s => Recursive_scan url e d t s
  | Deep_recursive_scan url e _ s => Deep_recursive_scan url e t s
  | Subdirs_scan url sub e _ s => Subdirs_scan url sub e t s
  | Wordlist_scan url wl e _ s => Wordlist_scan url wl e t s
  | Json_report_scan url e _ s => Json_report_scan url e t s
  | Proxy_scan url px e _ s => Proxy_scan url px e t s
  | Authenticated_scan url cred ty e _ => Authenticated_scan url cred ty e t
  | Custom_scan url extra => Custom_scan url extra
  end.

Definition default_threads (c : call) : Z :=
  match c with
  | Deep_recursive_scan _ _ _ _ => 40%Z
  | _ => 20%Z
  end.

(** Whether the caller asks for all status codes: the [show_errors]
    parameter, where the tool has one. *)
Definition asks_all_codes (c : call) : bool :=
  match c with
  | Quick_scan _ _ _ s | Recursive_scan _ _ _ _ s | Deep_recursive_scan _ _ _ s
  | Subdirs_scan _ _ _ _ s | Wordlist_scan _ _ _ _ s | Json_report_scan _ _ _ s
  | Proxy_scan _ _ _ _ s => or_default s false
  | Authenticated_scan _ _ _ _ _ | Custom_scan _ _ => false
  end.

End Server.
End Dirsearch.

(** ** nmap-mcp-server.py *)
Module Nmap.
Section Server.
Context {host : Host}.

Definition _run_nmap (args : list token) : M string :=
  result <- subprocess_run (Some "nmap" :: args) ;;
  if negb (returncode result =? 0)%Z then
    raise (RuntimeError
             ("Nmap exited with " ++ str_int (returncode result) ++ ":"
              ++ newline ++ str_or (stderr result) (stdout result)))
  else ret (stdout result).

Definition _add_pn (args : list token) : list token :=
  Some "-Pn" :: args.

Definition full_port_scan_args (target : string) (timing : option string)
  : list token :=
  _add_pn [Some "-sS"; Some "-p"; Some "1-65535";
           Some ("-" ++ format_opt timing)%string; Some target].

Definition full_port_scan (target : string) (timing : kwarg (option string))
  : M string :=
  _run_nmap (full_port_scan_args target (or_default timing (Some "T4"))).

Definition stealth_syn_scan_args (target ports : string)
    (timing : option string) : list token :=
  _add_pn [Some "-sS"; Some "-p"; Some ports;
           Some ("-" ++ format_opt timing)%string; Some target].

Definition stealth_syn_scan (target : string) (ports : kwarg string)
    (timing : kwarg (option string)) : M string :=
  _run_nmap
    (stealth_syn_scan_args target (or_default ports "1-1000")
       (or_default timing (Some "T3"))).

Definition tcp_connect_scan_args (target ports : string)
    (timing : option string) : list token :=
  _add_pn [Some "-sT"; Some "-p"; Some ports;
           Some ("-" ++ format_opt timing)%string; Some target].

Definition tcp_connect_scan (target : string) (ports : kwarg string)
    (timing : kwarg (option string)) : M string :=
  _run_nmap
    (tcp_connect_scan_args target (or_default ports "1-1024")
       (or_default timing (Some "T3"))).

Definition udp_scan_args (target ports : string) (timing : option string)
  : list token :=
  _add_pn [Some "-sU"; Some "-p"; Some ports;
           Some ("-" ++ format_opt timing)%string; Some target].

Definition udp_scan (target : string) (ports : kwarg string)
    (timing : kwarg (option string)) : M string :=
  _run_nmap
    (udp_scan_args target (or_default ports "1-1000")
       (or_default timing (Some "T4"))).

Definition os_detection_scan_args (target : string) (quick : bool)
  : list token :=
  let args := [Some "-O"; Some target] in
  let args := if quick then Some "-F" :: args (* args.insert(0, "-F") *)
              else args in
  _add_pn args.

Definition os_detection_scan (target : string) (quick : kwarg bool)
  : M string :=
  _run_nmap (os_detection_scan_args target (or_default quick false)).

Definition ping_sweep_args (network : string) : list token :=
  [Some "-sn"; Some network].

Definition ping_sweep (network : string) : M string :=
  _run_nmap (ping_sweep_args network).

Definition aggressive_scan_args (target : string) : list token :=
  _add_pn [Some "-A"; Some target].

Definition aggressive_scan (target : string) : M string :=
  _run_nmap (aggressive_scan_args target).

(** As in the other server, [shlex.split] runs, and may raise, before
    [_run_nmap] is entered. *)
Definition custom_scan_args (target extra_args : string)
  : outcome (list token) :=
  match Shlex.split extra_args with
  | Raise e => Raise e
  | Return extra => Return (_add_pn (map Some extra ++ [Some target]))
  end.

Definition custom_scan (target extra_args : string) : M string :=
  args <- lift (custom_scan_args target extra_args) ;;
  _run_nmap args.

Inductive call : Type :=
| Full_port_scan (target : string) (timing : kwarg (option string))
| Stealth_syn_scan (target : string) (ports : kwarg string)
    (timing : kwarg (option string))
| Tcp_connect_scan (target : string) (ports : kwarg string)
    (timing : kwarg (option string))
| Udp_scan (target : string) (ports : kwarg string)
    (timing : kwarg (option string))
| Os_detection_scan (target : string) (quick : kwarg bool)
| Ping_sweep (network : string)
| Aggressive_scan (target : string)
| Custom_scan (target extra_args : string).

Definition invoke (c : call) : M string :=
  match c with
  | Full_port_scan target t => full_port_scan target t
  | Stealth_syn_scan target p t => stealth_syn_scan target p t
  | Tcp_connect_scan target p t => tcp_connect_scan target p t
  | Udp_scan target p t => udp_scan target p t
  | Os_detection_scan target q => os_detection_scan target q
  | Ping_sweep network => ping_sweep network
  | Aggressive_scan target => aggressive_scan target
  | Custom_scan target extra => custom_scan target extra
  end.

(** The argument list a call builds for [_run_nmap]. *)
Definition built (c : call) : outcome (list token) :=
  match c with
  | Full_port_scan target t =>
      Return (full_port_scan_args target (or_default t (Some "T4")))
  | Stealth_syn_scan target p t =>
      Return (stealth_syn_scan_args target (or_default p "1-1000")
                (or_default t (Some "T3")))
  | Tcp_connect_scan target p t =>
      Return (tcp_connect_scan_args target (or_default p "1-1024")
                (or_default t (Some "T3")))
  | Udp_scan target p t =>
      Return (udp_scan_args target (or_default p "1-1000")
                (or_default t (Some "T4")))
  | Os_detection_scan target q =>
      Return (os_detection_scan_args target (or_default q false))
  | Ping_sweep network => Return (ping_sweep_args network)
  | Aggressive_scan target => Return (aggressive_scan_args target)
  | Custom_scan target extra => custom_scan_args target extra
  end.

(** The [target] (for [ping_sweep], [network]) parameter. *)
Definition target_of (c : call) : string :=
  match c with
  | Full_port_scan target _ | Stealth_syn_scan target _ _
  | Tcp_connect_scan target _ _ | Udp_scan target _ _
  | Os_detection_scan target _ | Ping_sweep target | Aggressive_scan target
  | Custom_scan target _ => target
  end.

Definition is_ping_sweep (c : call) : bool :=
  match c with
  | Ping_sweep _ => true
  | _ => false
  end.

End Server.
End Nmap.

(** ** Vocabulary of the properties *)

(** [a] immediately followed by [b] somewhere in [l]. *)
Fixpoint has_pair (a b : token) (l : list token) : bool :=
  match l with
  | x :: ((y :: _) as l') => (token_eqb x a && token_eqb y b) || has_pair a b l'
  | _ => false
  end.

(** [needle in hay] on strings. *)
Fixpoint contains (needle hay : string) : bool :=
  String.prefix needle hay
  || match hay with
     | EmptyString => false
     | String _ hay' => contains needle hay'
     end.

(** The command lines started between two states of the world. *)
Definition launched (before after : world) : list (list string) :=
  skipn (length (spawned before)) (spawned after).

(** The command line of [prog] with the built arguments, when there is one
    to start. *)
Definition command_line (prog : string) (args : outcome (list token))
  : option (list string) :=
  match args with
  | Return l => all_str (Some prog :: l)
  | Raise _ => None
  end.

(** Directory [d] and everything below it are absent from [f]. *)
Definition gone (d : string) (f : filesystem) : Prop :=
  forall p, within d p = true -> f p = None.

(** Shell quoting, read off the string alone: outside quotes a backslash
    protects the next character and a quote character opens a quoted part;
    a single-quoted part runs to the next single quote; a double-quoted part
    runs to the next double quote that no backslash protects.  [inside] is
    the quote character of the part being read, [protected] tells that the
    previous character was a protecting backslash.  The result is the quote
    left open at the end of the string. *)
Fixpoint open_quote_from (s : list ascii) (inside : option ascii)
    (protected : bool) : option ascii :=
  match s with
  | [] => inside
  | c :: s' =>
      if protected then open_quote_from s' inside false
      else
        match inside with
        | None =>
            if Ascii.eqb c "\" then open_quote_from s' None true
            else if Ascii.eqb c "'" || Ascii.eqb c Shlex.dquote
                 then open_quote_from s' (Some c) false
                 else open_quote_from s' None false
        | Some q =>
            if Ascii.eqb c q then open_quote_from s' None false
            else if Ascii.eqb q Shlex.dquote && Ascii.eqb c "\"
                 then open_quote_from s' (Some q) true
                 else open_quote_from s' (Some q) false
        end
  end.

Definition unterminated_quote (s : string) : bool :=
  match open_quote_from (list_ascii_of_string s) None false with
  | Some _ => true
  | None => false
  end.

(** The quoting position the lexer is in, in the terms of
    [open_quote_from]; [None] for the combinations a run never reaches. *)
Definition position (st es : Shlex.lexstate) : option (option ascii * bool) :=
  match st with
  | Shlex.AtEof => None
  | Shlex.InSpace | Shlex.InWord => Some (None, false)
  | Shlex.InQuote q =>
      if Shlex.mem q Shlex.quotes then Some (Some q, false) else None
  | Shlex.InEscape _ =>
      match es with
      | Shlex.InWord => Some (None, true)
      | Shlex.InQuote q =>
          if Shlex.mem q Shlex.quotes then Some (Some q, true) else None
      | _ => None
      end
  end.

(** Writing a word for the shell: between single quotes, each single quote
    of the word itself closing the quoted part, standing between double
    quotes, and opening the quoted part again. *)
Fixpoint protect (w : string) : string :=
  match w with
  | EmptyString => EmptyString
  | String c w' =>
      if Ascii.eqb c "'"
      then String "'" (String Shlex.dquote (String "'" (String Shlex.dquote
             (String "'" (protect w')))))
      else String c (protect w')
  end.

Definition single_quoted (w : string) : string :=
  String "'" (protect w ++ "'").

(** A character with no meaning to the lexer. *)
Definition plain_char (c : ascii) : bool :=
  negb (Shlex.mem c Shlex.whitespace)
  && negb (Shlex.mem c Shlex.quotes)
  && negb (Shlex.mem c Shlex.escape).

(** A non-empty word of plain characters. *)
Definition plain_word (w : string) : bool :=
  negb (String.eqb w "") && forallb plain_char (list_ascii_of_string w).

(** The form in which a word is handed to the shell: as it is when it is
    plain, else between single quotes. *)
Definition shell_word (w : string) : string :=
  if plain_word w then w else single_quoted w.

(** [enc] is read from the start of a token as the word [w], leaving the
    lexer in a word with [quoted] equal to [qd]. *)
Definition reads_as (enc w : string) (qd : bool) : Prop :=
  (negb (String.eqb w "") || qd = true)
  /\ forall tail,
       Shlex.read_loop (list_ascii_of_string enc ++ tail)
         Shlex.InSpace "" false Shlex.InSpace
       = Shlex.read_loop tail Shlex.InWord w qd Shlex.InSpace.

(** ** Sample hosts and worlds *)

Definition empty_fs : filesystem := fun _ => None.

Definition fresh_world : world := World empty_fs [].

(** A host on which every program exits with status 2 and the word [err] on
    its standard error. *)
Definition failing_host : Host := {|
  exec := fun _ f => Some (Completed 2 "out" "err", f);
  mkdtemp := fun _ => Some "/tmp/tmpa"
|}.

(** A host whose programs exit with status 0 after writing a report to the
    path given as their last argument; temporary directories are named
    [/tmp/tmpa], or [/tmp/tmpb] when that name is taken. *)
Definition reporting_host : Host := {|
  exec := fun argv f =>
    Some (Completed 0 "done" "",
          fun p => if String.eqb p (last argv "") then Some (File "{}") else f p);
  mkdtemp := fun f =>
    match f "/tmp/tmpa", f "/tmp/tmpb" with
    | None, _ => Some "/tmp/tmpa"
    | Some _, None => Some "/tmp/tmpb"
    | Some _, Some _ => None
    end
|}.

(** A host whose programs exit with status 0 and write nothing. *)
Definition silent_host : Host := {|
  exec := fun _ f => Some (Completed 0 "" "", f);
  mkdtemp := fun _ => Some "/tmp/tmpa"
|}.

(** A world in which [/tmp/tmpa] exists already. *)
Definition used_world : world :=
  World (fun p => if String.eqb p "/tmp/tmpa" then Some Dir else None) [].

(** The one tool that works in a temporary directory. *)
Definition is_json_report_scan (c : Dirsearch.call) : bool :=
  match c with
  | Dirsearch.Json_report_scan _ _ _ _ => true
  | _ => false
  end.

(** What running a program on built arguments does to the world [w]: the
    world is as the host's [exec] leaves it when there is a command line and
    the program starts, and is [w] itself in every other case. *)
Definition world_after {host : Host} (prog : string)
    (args : outcome (list token)) (w : world) : world :=
  match command_line prog args with
  | None => w
  | Some cmd =>
      match exec cmd (fs w) with
      | None => w
      | Some (_, fs') => World fs' (spawned w ++ [cmd])
      end
  end.

(** ** Further vocabulary *)

(** The quoting position at the end of a string: as [open_quote_from], and
    also whether the last character was a protecting backslash. *)
Fixpoint quote_end_from (s : list ascii) (inside : option ascii)
    (protected : bool) : option ascii * bool :=
  match s with
  | [] => (inside, protected)
  | c :: s' =>
      if protected then quote_end_from s' inside false
      else
        match inside with
        | None =>
            if Ascii.eqb c "\" then quote_end_from s' None true
            else if Ascii.eqb c "'" || Ascii.eqb c Shlex.dquote
                 then quote_end_from s' (Some c) false
                 else quote_end_from s' None false
        | Some q =>
            if Ascii.eqb c q then quote_end_from s' None false
            else if Ascii.eqb q Shlex.dquote && Ascii.eqb c "\"
                 then quote_end_from s' (Some q) true
                 else quote_end_from s' (Some q) false
        end
  end.

Definition quote_end (s : string) : option ascii * bool :=
  quote_end_from (list_ascii_of_string s) None false.

(** The words of a string: its maximal runs of characters other than the
    lexer's blanks, in order.  [cur] is the run being read. *)
Fixpoint words_from (s : list ascii) (cur : string) : list string :=
  match s with
  | [] => if String.eqb cur "" then [] else [cur]
  | c :: s' =>
      if Shlex.mem c Shlex.whitespace
      then if String.eqb cur "" then words_from s' ""
           else cur :: words_from s' ""
      else words_from s' (cur ++ String c "")
  end.

Definition words (s : string) : list string :=
  words_from (list_ascii_of_string s) "".

(** No quote character and no backslash. *)
Definition quote_free_char (c : ascii) : bool :=
  negb (Shlex.mem c Shlex.quotes) && negb (Shlex.mem c Shlex.escape).

Definition quote_free (s : string) : bool :=
  forallb quote_free_char (list_ascii_of_string s).

(** The result and the world an invoker leaves, for the program [prog], the
    label [label] of its error message and the command-line strings [strs]
    of its arguments. *)
Definition run_outcome {host : Host} (prog label : string)
    (strs : list string) (w : world) : outcome string * world :=
  match exec (prog :: strs) (fs w) with
  | None => (Raise (FileNotFoundError prog), w)
  | Some (r, fs') =>
      (if (returncode r =? 0)%Z then Return (stdout r)
       else Raise (RuntimeError
                     (label ++ " exited with " ++ str_int (returncode r) ++ ":"
                      ++ newline ++ str_or (stderr r) (stdout r))),
       World fs' (spawned w ++ [prog :: strs]))
  end.

(** The [extensions] value a dirsearch call puts in its list whatever it
    is; [wordlist_scan] tests it first and [custom_scan] has none. *)
Definition passed_extensions (c : Dirsearch.call) : option (option string) :=
  match c with
  | Dirsearch.Quick_scan _ e _ _ | Dirsearch.Recursive_scan _ e _ _ _
  | Dirsearch.Deep_recursive_scan _ e _ _ | Dirsearch.Subdirs_scan _ _ e _ _
  | Dirsearch.Json_report_scan _ e _ _ | Dirsearch.Proxy_scan _ _ e _ _
  | Dirsearch.Authenticated_scan _ _ _ e _ =>
      Some (or_default e Dirsearch.common_extensions)
  | Dirsearch.Wordlist_scan _ _ _ _ _ | Dirsearch.Custom_scan _ _ => None
  end.

Definition none_rejected : exn :=
  TypeError "expected str, bytes or os.PathLike object, not NoneType".

(** The [url] parameter of a dirsearch call. *)
Definition url_of (c : Dirsearch.call) : string :=
  match c with
  | Dirsearch.Quick_scan url _ _ _ | Dirsearch.Recursive_scan url _ _ _ _
  | Dirsearch.Deep_recursive_scan url _ _ _ | Dirsearch.Subdirs_scan url _ _ _ _
  | Dirsearch.Wordlist_scan url _ _ _ _ | Dirsearch.Json_report_scan url _ _ _
  | Dirsearch.Proxy_scan url _ _ _ _ | Dirsearch.Authenticated_scan url _ _ _ _
  | Dirsearch.Custom_scan url _ => url
  end.

(** What [open(path).read()] gives on a file system. *)
Definition read_outcome (f : filesystem) (path : string) : outcome string :=
  match f path with
  | Some (File text) => Return text
  | Some Dir => Raise (IsADirectoryError path)
  | None => Raise (FileNotFoundError path)
  end.

(** ** The entry point of both servers

    [argparse] leaves a namespace with [transport], one of [stdio] and
    [sse] (default [stdio]), and the integer [port] (default 8000); the
    server object has its [settings.port] and, once [run] is called, the
    transport it serves on. *)
Record namespace : Type := Namespace {
  transport : string;
  port : Z
}.

Record server : Type := Server {
  settings_port : Z;
  serving : option string
}.

(** The body of [if __name__ == "__main__"] after [parse_args]. *)
Definition main (cli : namespace) (mcp : server) : server :=
  let mcp :=
    if String.eqb (transport cli) "sse" && negb (port cli =? 8000)%Z
    then Server (port cli) (serving mcp)
    else mcp in
  Server (settings_port mcp) (Some (transport cli)).

(** The tokens [x] put before a result of [shlex.split]. *)
Definition extend (x : list string) (r : outcome (list string))
  : outcome (list string) :=
  match r with
  | Return y => Return (x ++ y)
  | Raise e => Raise e
  end.

(** * Proofs *)

(** ** The lexer *)
Section ShlexFacts.
Import Shlex.
#[local] Arguments mem : simpl never.

Lemma mem_whitespace (c : ascii) :
  mem c whitespace = true ->
  mem c quotes = false /\ mem c escape = false.
Proof.
  unfold mem, whitespace. simpl. rewrite !orb_true_iff, !Ascii.eqb_eq.
  intros [H | [H | [H | [H | H]]]]; try discriminate; subst; split; reflexivity.
Qed.

Lemma mem_quotes (c : ascii) :
  mem c quotes = (Ascii.eqb c "'" || Ascii.eqb c dquote)%bool.
Proof. unfold mem, quotes. simpl. now rewrite orb_false_r. Qed.

Lemma mem_escape (c : ascii) : mem c escape = Ascii.eqb c "\".
Proof. unfold mem, escape. simpl. now rewrite orb_false_r. Qed.

Lemma mem_escapedquotes (c : ascii) : mem c escapedquotes = Ascii.eqb c dquote.
Proof. unfold mem, escapedquotes. simpl. now rewrite orb_false_r. Qed.

Lemma quote_not_escape (c : ascii) : mem c quotes = true -> mem c escape = false.
Proof.
  rewrite mem_quotes, mem_escape, orb_true_iff, !Ascii.eqb_eq.
  intros [H | H]; subst; reflexivity.
Qed.

Lemma wordchars_not_quote (c : ascii) :
  mem c wordchars = true -> mem c quotes = false.
Proof.
  destruct c as [[] [] [] [] [] [] [] []]; vm_compute;
    intros H; try reflexivity; discriminate H.
Qed.

(** A break of the loop either stopped at a blank, having consumed input and
    holding a token, or happened at the end of the input. *)
Lemma read_loop_progress (s : list ascii) :
  forall st tok qd es b,
    st <> AtEof -> es <> AtEof ->
    read_loop s st tok qd es = Return b ->
    (b_state b = InSpace /\ length (b_rest b) < length s
     /\ (negb (String.eqb (b_token b) "") || b_quoted b = true))
    \/ (b_state b = AtEof /\ b_rest b = []).
Proof.
  induction s as [| c s IH]; intros st tok qd es b Hst Hes H.
  - destruct st; simpl in H; try discriminate; try congruence;
      inversion H; subst; right; split; reflexivity.
  - assert (Hstep : forall st' tok' qd' es',
               st' <> AtEof -> es' <> AtEof ->
               read_loop s st' tok' qd' es' = Return b ->
               (b_state b = InSpace /\ length (b_rest b) < length (c :: s)
                /\ (negb (String.eqb (b_token b) "") || b_quoted b = true))
               \/ (b_state b = AtEof /\ b_rest b = [])).
    { intros st' tok' qd' es' H1 H2 H3.
      destruct (IH _ _ _ _ _ H1 H2 H3) as [(Ha & Hb & Hc) | Hd]; [left | right; assumption].
      repeat split; try assumption. simpl. lia. }
    destruct st; simpl in H.
    + congruence.
    + destruct (mem c whitespace).
      * destruct (negb (tok =? "") || qd) eqn:E.
        -- inversion H; subst. left. simpl. repeat split; auto; lia.
        -- eapply Hstep; [ | | exact H]; congruence.
      * destruct (mem c escape); [eapply Hstep; [ | | exact H]; congruence |].
        destruct (mem c wordchars); [eapply Hstep; [ | | exact H]; congruence |].
        destruct (mem c quotes); eapply Hstep; [ | | exact H | | | exact H]; congruence.
    + destruct (mem c whitespace).
      * destruct (negb (tok =? "") || qd) eqn:E.
        -- inversion H; subst. left. simpl. repeat split; auto; lia.
        -- eapply Hstep; [ | | exact H]; congruence.
      * destruct (mem c quotes); [eapply Hstep; [ | | exact H]; congruence |].
        destruct (mem c escape); eapply Hstep; [ | | exact H | | | exact H]; congruence.
    + destruct (Ascii.eqb c q); [eapply Hstep; [ | | exact H]; congruence |].
      destruct (mem c escape && mem q escapedquotes);
        eapply Hstep; [ | | exact H | | | exact H]; congruence.
    + eapply Hstep; [ | | exact H]; assumption.
Qed.

(** The bound on the iteration is never what stops [tokens]. *)
Lemma tokens_enough (fuel : nat) :
  forall s st,
    (st = InSpace /\ length s + 2 <= fuel) \/ (st = AtEof /\ s = [] /\ 1 <= fuel) ->
    tokens fuel s st <> None.
Proof.
  induction fuel as [| fuel IH]; intros s st Hcase.
  - destruct Hcase as [[_ H] | (_ & _ & H)]; lia.
  - simpl. destruct Hcase as [[-> Hlen] | (-> & -> & _)].
    + unfold read_token.
      destruct (read_loop s InSpace "" false InSpace) as [b | e] eqn:E;
        [| discriminate].
      destruct (negb (b_quoted b) && (b_token b =? "")); [discriminate |].
      apply read_loop_progress in E; try discriminate.
      assert (Hnext : tokens fuel (b_rest b) (b_state b) <> None).
      { apply IH. destruct E as [(Hs & Hl & _) | [Hs Hr]].
        - left. split; [assumption | lia].
        - right. repeat split; try assumption. lia. }
      destruct (tokens fuel (b_rest b) (b_state b)) as [[ts | e] |];
        congruence.
    + discriminate.
Qed.

Lemma split_tokens (s : string) :
  tokens (length (list_ascii_of_string s) + 2) (list_ascii_of_string s) InSpace
  = Some (split s).
Proof.
  unfold split.
  destruct (tokens _ _ _) eqn:E; [reflexivity |].
  exfalso. revert E. apply tokens_enough. left. split; [reflexivity | lia].
Qed.

(** Reading on from a position whose string ends inside a quote: the loop
    raises, or breaks at a blank with a token in hand and the rest of the
    string still ending inside a quote. *)
Lemma read_loop_open_quote (s : list ascii) :
  forall st tok qd es inside protected,
    position st es = Some (inside, protected) ->
    open_quote_from s inside protected <> None ->
    (exists msg, read_loop s st tok qd es = Raise (ValueError msg))
    \/ (exists b, read_loop s st tok qd es = Return b
                  /\ b_state b = InSpace
                  /\ length (b_rest b) < length s
                  /\ (negb (String.eqb (b_token b) "") || b_quoted b = true)
                  /\ open_quote_from (b_rest b) None false <> None).
Proof.
  induction s as [| c s IH]; intros st tok qd es inside protected Hpos Hopen.
  - left. destruct st; simpl in *; try discriminate.
    + inversion Hpos; subst. congruence.
    + inversion Hpos; subst. congruence.
    + eexists; reflexivity.
    + eexists; reflexivity.
  - assert (Hstep : forall st' tok' qd' es' inside' protected',
               position st' es' = Some (inside', protected') ->
               open_quote_from s inside' protected' <> None ->
               (exists msg, read_loop s st' tok' qd' es' = Raise (ValueError msg))
               \/ (exists b, read_loop s st' tok' qd' es' = Return b
                             /\ b_state b = InSpace
                             /\ length (b_rest b) < length (c :: s)
                             /\ (negb (String.eqb (b_token b) "") || b_quoted b = true)
                             /\ open_quote_from (b_rest b) None false <> None)).
    { intros st' tok' qd' es' inside' protected' H1 H2.
      destruct (IH st' tok' qd' es' _ _ H1 H2) as [Hl | (b & Hb & Hs & Hlen & Hr)];
        [left; assumption | right].
      exists b. repeat split; try tauto. simpl. lia. }
    destruct st; simpl in Hpos; try discriminate.
    + (* InSpace *)
      inversion Hpos; subst inside protected. simpl in Hopen. simpl.
      destruct (mem c whitespace) eqn:Ews.
      * destruct (mem_whitespace _ Ews) as [Hq He].
        rewrite mem_quotes in Hq. rewrite mem_escape in He.
        rewrite He, Hq in Hopen.
        destruct (negb (tok =? "") || qd) eqn:E.
        -- right. eexists. split; [reflexivity |]. simpl.
           repeat split; auto.
        -- eapply Hstep; [reflexivity | exact Hopen].
      * destruct (mem c escape) eqn:Ee.
        { rewrite mem_escape in Ee. rewrite Ee in Hopen.
          eapply Hstep; [reflexivity | exact Hopen]. }
        rewrite mem_escape in Ee. rewrite Ee in Hopen.
        destruct (mem c quotes) eqn:Eq.
        { pose proof Eq as Eq'. rewrite mem_quotes in Eq'. rewrite Eq' in Hopen.
          destruct (mem c wordchars) eqn:Ew;
            [apply wordchars_not_quote in Ew; congruence |].
          eapply Hstep; [simpl; rewrite Eq; reflexivity | exact Hopen]. }
        pose proof Eq as Eq'. rewrite mem_quotes in Eq'. rewrite Eq' in Hopen.
        destruct (mem c wordchars);
          (eapply Hstep; [reflexivity | exact Hopen]).
    + (* InWord *)
      inversion Hpos; subst inside protected. simpl in Hopen. simpl.
      destruct (mem c whitespace) eqn:Ews.
      * destruct (mem_whitespace _ Ews) as [Hq He].
        rewrite mem_quotes in Hq. rewrite mem_escape in He.
        rewrite He, Hq in Hopen.
        destruct (negb (tok =? "") || qd) eqn:E.
        -- right. eexists. split; [reflexivity |]. simpl.
           repeat split; auto.
        -- eapply Hstep; [reflexivity | exact Hopen].
      * destruct (mem c quotes) eqn:Eq.
        { pose proof (quote_not_escape _ Eq) as Ee.
          rewrite mem_escape in Ee. rewrite Ee in Hopen.
          pose proof Eq as Eq'. rewrite mem_quotes in Eq'. rewrite Eq' in Hopen.
          eapply Hstep; [simpl; rewrite Eq; reflexivity | exact Hopen]. }
        pose proof Eq as Eq'. rewrite mem_quotes in Eq'. rewrite Eq' in Hopen.
        destruct (mem c escape) eqn:Ee; rewrite mem_escape in Ee;
          rewrite Ee in Hopen;
          (eapply Hstep; [reflexivity | exact Hopen]).
    + (* InQuote *)
      destruct (mem q quotes) eqn:Eq; [| discriminate].
      inversion Hpos; subst inside protected. simpl in Hopen. simpl.
      destruct (Ascii.eqb c q) eqn:Ecq.
      * eapply Hstep; [reflexivity | exact Hopen].
      * rewrite mem_escape, mem_escapedquotes.
        rewrite (andb_comm (c =? "\")%char) .
        destruct ((q =? dquote)%char && (c =? "\")%char) eqn:Ee.
        -- eapply Hstep; [simpl; rewrite Eq; reflexivity | exact Hopen].
        -- eapply Hstep; [simpl; rewrite Eq; reflexivity | exact Hopen].
    + (* InEscape *)
      simpl.
      destruct es; try discriminate.
      * inversion Hpos; subst inside protected. simpl in Hopen.
        eapply Hstep; [reflexivity | exact Hopen].
      * destruct (mem q quotes) eqn:Eq; [| discriminate].
        inversion Hpos; subst inside protected. simpl in Hopen.
        eapply Hstep; [simpl; rewrite Eq; reflexivity | exact Hopen].
Qed.

Lemma tokens_open_quote (fuel : nat) :
  forall s,
    length s < fuel ->
    open_quote_from s None false <> None ->
    exists msg, tokens fuel s InSpace = Some (Raise (ValueError msg)).
Proof.
  induction fuel as [| fuel IH]; intros s Hlen Hopen; [lia |].
  simpl. unfold read_token.
  destruct (read_loop_open_quote s InSpace "" false InSpace
              (inside := None) (protected := false) eq_refl Hopen)
    as [[msg Hr] | (b & Hr & Hs & Hl & Htok & Hrest)]; rewrite Hr.
  - exists msg. reflexivity.
  - rewrite Hs.
    destruct (IH (b_rest b)) as [msg Hm]; [lia | assumption |].
    exists msg.
    replace (negb (b_quoted b) && (b_token b =? "")) with false.
    + rewrite Hm. reflexivity.
    + destruct (b_quoted b), (b_token b =? ""); simpl in *; congruence.
Qed.

(** A string that ends inside a quote makes [shlex.split] raise. *)
Lemma split_open_quote (s : string) :
  unterminated_quote s = true ->
  exists msg, split s = Raise (ValueError msg).
Proof.
  unfold unterminated_quote. intros H.
  destruct (@tokens_open_quote (length (list_ascii_of_string s) + 2)
              (list_ascii_of_string s)) as [msg Hm].
  - lia.
  - destruct (open_quote_from _ _ _); congruence.
  - exists msg. unfold split. rewrite Hm. reflexivity.
Qed.

(** The lexer raises nothing but its two parsing errors. *)
Lemma read_loop_raises (s : list ascii) :
  forall st tok qd es e,
    read_loop s st tok qd es = Raise e ->
    e = ValueError "No closing quotation"
    \/ e = ValueError "No escaped character".
Proof.
  induction s as [| c s IH]; intros st tok qd es e H.
  - destruct st; simpl in H; inversion H; auto.
  - destruct st; simpl in H; try discriminate;
      repeat match type of H with
             | (if ?b then _ else _) = _ => destruct b
             end;
      try discriminate; eapply IH; exact H.
Qed.

Lemma tokens_raises (fuel : nat) :
  forall s st e,
    tokens fuel s st = Some (Raise e) ->
    e = ValueError "No closing quotation"
    \/ e = ValueError "No escaped character".
Proof.
  induction fuel as [| fuel IH]; intros s st e H; [discriminate |].
  simpl in H. unfold read_token in H.
  destruct (read_loop s st "" false InSpace) as [b | e'] eqn:E.
  - destruct (negb (b_quoted b) && (b_token b =? "")); [discriminate |].
    destruct (tokens fuel (b_rest b) (b_state b)) as [[ts | e''] |] eqn:E';
      try discriminate.
    inversion H; subst. eapply IH; exact E'.
  - inversion H; subst. eapply read_loop_raises; exact E.
Qed.

Lemma split_raises (s : string) (e : exn) :
  split s = Raise e ->
  e = ValueError "No closing quotation"
  \/ e = ValueError "No escaped character".
Proof.
  intros H. pose proof (split_tokens s) as Ht. rewrite H in Ht.
  eapply tokens_raises; exact Ht.
Qed.

(** *** Words written for the shell are read back *)

Lemma append_empty_r (s : string) : (s ++ "")%string = s.
Proof. induction s as [| c s IH]; simpl; [reflexivity | now rewrite IH]. Qed.

Lemma append_assoc (a b c : string) :
  ((a ++ b) ++ c)%string = (a ++ (b ++ c))%string.
Proof. induction a as [| x a IH]; simpl; [reflexivity | now rewrite IH]. Qed.

Lemma chars_append (a b : string) :
  list_ascii_of_string (a ++ b)
  = list_ascii_of_string a ++ list_ascii_of_string b.
Proof. induction a as [| x a IH]; simpl; [reflexivity | now rewrite IH]. Qed.

Lemma push_append (tok : string) (c : ascii) (w : string) :
  (push tok c ++ w)%string = (tok ++ String c w)%string.
Proof. unfold push. now rewrite append_assoc. Qed.

(** Two bounds that both suffice give the same result. *)
Lemma tokens_fuel_agree (f1 : nat) :
  forall f2 s st r1 r2,
    tokens f1 s st = Some r1 -> tokens f2 s st = Some r2 -> r1 = r2.
Proof.
  induction f1 as [| f1 IH]; intros f2 s st r1 r2 H1 H2; [discriminate |].
  destruct f2 as [| f2]; [discriminate |].
  simpl in H1, H2.
  destruct (read_token s st) as [[[[t |] st'] rest] | e]; try congruence.
  destruct (tokens f1 rest st') as [o1 |] eqn:E1; [| discriminate].
  destruct (tokens f2 rest st') as [o2 |] eqn:E2; [| discriminate].
  rewrite (IH _ _ _ _ _ E1 E2) in H1. congruence.
Qed.

Lemma plain_char_classes (c : ascii) :
  plain_char c = true ->
  mem c whitespace = false /\ mem c quotes = false /\ mem c escape = false.
Proof.
  unfold plain_char. rewrite !andb_true_iff, !negb_true_iff. tauto.
Qed.

(** In a word, plain characters are appended to the token. *)
Lemma read_loop_plain (w : string) :
  forall tok qd es tail,
    forallb plain_char (list_ascii_of_string w) = true ->
    read_loop (list_ascii_of_string w ++ tail) InWord tok qd es
    = read_loop tail InWord (tok ++ w) qd es.
Proof.
  induction w as [| c w IH]; intros tok qd es tail Hp; simpl.
  - now rewrite append_empty_r.
  - simpl in Hp. apply andb_true_iff in Hp as [Hc Hw].
    destruct (plain_char_classes _ Hc) as (-> & -> & ->).
    rewrite IH by assumption. now rewrite push_append.
Qed.

Lemma plain_word_reads (w : string) :
  plain_word w = true -> reads_as w w false.
Proof.
  unfold plain_word. rewrite andb_true_iff. intros [Hne Hp]. split.
  - now rewrite Hne.
  - intros tail. destruct w as [| c w]; [discriminate |].
    simpl in Hp. apply andb_true_iff in Hp as [Hc Hw]. simpl.
    destruct (plain_char_classes _ Hc) as (-> & -> & ->).
    assert (Hnext : read_loop (list_ascii_of_string w ++ tail) InWord
                      (String c "") false InSpace
                    = read_loop tail InWord (String c w) false InSpace).
    { now rewrite read_loop_plain. }
    destruct (mem c wordchars); exact Hnext.
Qed.

(** Inside single quotes, the protected form of [w] appends [w]. *)
Lemma read_loop_protect (w : string) :
  forall tok qd es tail,
    read_loop (list_ascii_of_string (protect w) ++ "'"%char :: tail)
      (InQuote "'") tok qd es
    = read_loop tail InWord (tok ++ w) true es.
Proof.
  induction w as [| c w IH]; intros tok qd es tail; simpl.
  - now rewrite append_empty_r.
  - destruct (Ascii.eqb c "'") eqn:E.
    + apply Ascii.eqb_eq in E. subst c. simpl.
      rewrite IH. now rewrite push_append.
    + simpl. rewrite E. rewrite mem_escapedquotes. simpl.
      rewrite andb_false_r. rewrite IH. now rewrite push_append.
Qed.

Lemma single_quoted_reads (w : string) : reads_as (single_quoted w) w true.
Proof.
  split; [apply orb_true_r |].
  intros tail. unfold single_quoted. simpl.
  rewrite chars_append. simpl. rewrite <- app_assoc. simpl.
  now rewrite read_loop_protect.
Qed.

Lemma tokens_last_word (enc w : string) (qd : bool) (fuel : nat) :
  reads_as enc w qd ->
  tokens (S (S fuel)) (list_ascii_of_string enc) InSpace = Some (Return [w]).
Proof.
  intros [Hne Hread].
  specialize (Hread []). rewrite app_nil_r in Hread.
  cbn [tokens]. unfold read_token at 1. rewrite Hread. simpl.
  replace (negb qd && (w =? "")) with false
    by (destruct qd, (w =? ""); simpl in *; congruence).
  reflexivity.
Qed.

Lemma tokens_word_blank (enc w : string) (qd : bool) (fuel : nat)
    (rest : list ascii) :
  reads_as enc w qd ->
  tokens (S fuel) (list_ascii_of_string enc ++ " "%char :: rest) InSpace
  = match tokens fuel rest InSpace with
    | None => None
    | Some (Raise e) => Some (Raise e)
    | Some (Return ts) => Some (Return (w :: ts))
    end.
Proof.
  intros [Hne Hread].
  cbn [tokens]. unfold read_token. rewrite Hread. simpl.
  rewrite Hne. simpl.
  replace (negb qd && (w =? "")) with false
    by (destruct qd, (w =? ""); simpl in *; congruence).
  reflexivity.
Qed.

Lemma tokens_words (encs ws : list string) :
  Forall2 (fun enc w => exists qd, reads_as enc w qd) encs ws ->
  forall fuel,
    length ws < fuel ->
    tokens fuel (list_ascii_of_string (String.concat " " encs)) InSpace
    = Some (Return ws).
Proof.
  induction 1 as [| enc w encs ws [qd Hr] Hall IH]; intros fuel Hfuel.
  - destruct fuel; [lia | reflexivity].
  - destruct fuel as [| fuel]; [simpl in Hfuel; lia |].
    destruct encs as [| enc' encs].
    + inversion Hall; subst. destruct fuel; [simpl in Hfuel; lia |].
      simpl String.concat. eapply tokens_last_word; eassumption.
    + change (String.concat " " (enc :: enc' :: encs))
        with (enc ++ " " ++ String.concat " " (enc' :: encs))%string.
      rewrite chars_append.
      change (list_ascii_of_string (" " ++ String.concat " " (enc' :: encs)))
        with (" "%char :: list_ascii_of_string (String.concat " " (enc' :: encs))).
      rewrite (tokens_word_blank _ _ Hr).
      rewrite IH by (simpl in Hfuel; lia). reflexivity.
Qed.

(** Words joined by single blanks, each in a form that reads as itself,
    are split back into the same words in the same order. *)
Lemma split_words (encs ws : list string) :
  Forall2 (fun enc w => exists qd, reads_as enc w qd) encs ws ->
  split (String.concat " " encs) = Return ws.
Proof.
  intros H.
  pose proof (tokens_words H (fuel := S (length ws)) (Nat.lt_succ_diag_r _)) as H1.
  pose proof (split_tokens (String.concat " " encs)) as H2.
  symmetry. eapply tokens_fuel_agree; eassumption.
Qed.

Lemma shell_word_reads (w : string) : exists qd, reads_as (shell_word w) w qd.
Proof.
  unfold shell_word. destruct (plain_word w) eqn:E.
  - exists false. now apply plain_word_reads.
  - exists true. apply single_quoted_reads.
Qed.

(** [shlex.split] undoes the quoting of a list of words. *)
Lemma split_shell_words (ws : list string) :
  split (String.concat " " (map shell_word ws)) = Return ws.
Proof.
  apply split_words. induction ws as [| w ws IH]; constructor.
  - apply shell_word_reads.
  - exact IH.
Qed.

(** The lexer on the docstring's example, on quotes and escapes, and on
    the two malformed endings. *)
Example split_docstring :
  split "-p 80,443 --script vuln" = Return ["-p"; "80,443"; "--script"; "vuln"].
Proof. reflexivity. Qed.

Example split_single_quotes :
  split "  -H 'X-Scan: a  b'   -x''y  ''"
  = Return ["-H"; "X-Scan: a  b"; "-xy"; ""].
Proof. reflexivity. Qed.

Example split_double_quotes :
  split ("--ua " ++ String dquote ("my \\ " ++ String "\" (String dquote
           (" agent\n" ++ String dquote " a\ b"))))
  = Return ["--ua"; String "m" (String "y" (String " " (String "\" (String " "
              (String dquote " agent\n"))))); "a b"].
Proof. reflexivity. Qed.

Example split_open_single_quote :
  split "--header 'X-Scan: 1" = Raise (ValueError "No closing quotation").
Proof. reflexivity. Qed.

Example split_trailing_backslash :
  split "-x 403 \" = Raise (ValueError "No escaped character").
Proof. reflexivity. Qed.

End ShlexFacts.

(** ** Strings and token lists *)

Lemma prefix_append (n post : string) : String.prefix n (n ++ post) = true.
Proof.
  induction n as [| c n IH]; simpl; [destruct post; reflexivity |].
  destruct (ascii_dec c c); [exact IH | congruence].
Qed.

Lemma contains_unfold (needle hay : string) :
  contains needle hay
  = (String.prefix needle hay
     || match hay with
        | EmptyString => false
        | String _ hay' => contains needle hay'
        end).
Proof. destruct hay; reflexivity. Qed.

Lemma contains_middle (pre needle post : string) :
  contains needle (pre ++ needle ++ post) = true.
Proof.
  induction pre as [| c pre IH].
  - rewrite contains_unfold. simpl. now rewrite prefix_append.
  - rewrite contains_unfold. simpl. rewrite IH. apply orb_true_r.
Qed.

Lemma contains_end (pre needle : string) : contains needle (pre ++ needle) = true.
Proof.
  rewrite <- (append_empty_r needle) at 2. apply contains_middle.
Qed.

Lemma message_parts (pre code diag : string) :
  contains code (pre ++ code ++ ":" ++ newline ++ diag) = true
  /\ contains diag (pre ++ code ++ ":" ++ newline ++ diag) = true.
Proof.
  split; [apply contains_middle |].
  replace (pre ++ code ++ ":" ++ newline ++ diag)%string
    with ((pre ++ code ++ ":" ++ newline) ++ diag)%string
    by (now rewrite !append_assoc).
  apply contains_end.
Qed.

Lemma token_eqb_refl (a : token) : token_eqb a a = true.
Proof. destruct a; simpl; [apply String.eqb_refl | reflexivity]. Qed.

Lemma token_eqb_eq (a b : token) : token_eqb a b = true <-> a = b.
Proof.
  destruct a, b; simpl; try (split; congruence).
  rewrite String.eqb_eq. split; congruence.
Qed.

Lemma has_pair_here (a b : token) (l : list token) :
  has_pair a b (a :: b :: l) = true.
Proof. simpl. now rewrite !token_eqb_refl. Qed.

Lemma has_pair_later (a b x : token) (l : list token) :
  has_pair a b l = true -> has_pair a b (x :: l) = true.
Proof. intros H. destruct l; simpl in *; [discriminate | rewrite H; apply orb_true_r]. Qed.

(** [has_pair] decides adjacency. *)
Lemma has_pair_iff (a b : token) (l : list token) :
  has_pair a b l = true <-> exists pre post, l = pre ++ a :: b :: post.
Proof.
  split.
  - induction l as [| x l IH]; [discriminate |].
    destruct l as [| y l]; [discriminate |].
    cbn [has_pair]. rewrite orb_true_iff, andb_true_iff, !token_eqb_eq.
    intros [[-> ->] | H].
    + exists [], l. reflexivity.
    + destruct (IH H) as (pre & post & E). exists (x :: pre), post.
      rewrite E. reflexivity.
  - intros (pre & post & ->). induction pre as [| x pre IH].
    + apply has_pair_here.
    + apply has_pair_later. exact IH.
Qed.

(** ** The process invokers *)

(** [C3] Whenever the child process ran to an exit status, either invoker
    returns exactly the captured standard output if the status is 0 and
    raises if and only if it is not; the error is a [RuntimeError] whose
    message contains the decimal exit code and the captured standard error,
    or the captured standard output when the standard error is empty. *)
Theorem invoker_contract (host : Host) (prog : string)
    (run : list token -> M string) (args : list token) (strs : list string)
    (w : world) (result : completed) (fs' : filesystem) :
  (prog = "dirsearch" /\ run = Dirsearch._run_dirsearch)
  \/ (prog = "nmap" /\ run = Nmap._run_nmap) ->
  all_str args = Some strs ->
  exec (prog :: strs) (fs w) = Some (result, fs') ->
  (returncode result = 0%Z -> fst (run args w) = Return (stdout result))
  /\ ((exists e, fst (run args w) = Raise e) <-> returncode result <> 0%Z)
  /\ (returncode result <> 0%Z ->
      exists msg,
        fst (run args w) = Raise (RuntimeError msg)
        /\ contains (str_int (returncode result)) msg = true
        /\ contains (if String.eqb (stderr result) "" then stdout result
                     else stderr result) msg = true).
Proof.
  intros Hrun Hstrs Hexec.
  assert (Hfst : exists pre,
             fst (run args w)
             = if negb (returncode result =? 0)%Z
               then Raise (RuntimeError
                             (pre ++ str_int (returncode result) ++ ":"
                              ++ newline ++ str_or (stderr result) (stdout result)))
               else Return (stdout result)).
  { destruct Hrun as [[-> ->] | [-> ->]];
      [exists "dirsearch exited with " | exists "Nmap exited with "];
      unfold Dirsearch._run_dirsearch, Nmap._run_nmap, bind, subprocess_run;
      cbn [all_str]; rewrite Hstrs, Hexec;
      destruct (negb (returncode result =? 0)%Z); reflexivity. }
  destruct Hfst as [pre Hfst]. rewrite Hfst.
  destruct (Z.eqb_spec (returncode result) 0) as [E | E]; cbn [negb].
  - split; [reflexivity |]. split.
    + split; [intros [e He]; discriminate | intros H; contradiction].
    + intros H; contradiction.
  - split; [intros H; contradiction |]. split.
    + split; [intros _; exact E | intros _; eexists; reflexivity].
    + intros _. eexists. split; [reflexivity |]. apply message_parts.
Qed.

(** Exit code 2 with [err] on the standard error: the error message holds
    both. *)
Lemma invoker_contract_witness :
  all_str [Some "-q"] = Some ["-q"]
  /\ @exec failing_host ["dirsearch"; "-q"] (fs fresh_world)
     = Some (Completed 2 "out" "err", empty_fs)
  /\ exists msg,
       fst (@Dirsearch._run_dirsearch failing_host [Some "-q"] fresh_world)
       = Raise (RuntimeError msg)
       /\ contains "2" msg = true /\ contains "err" msg = true.
Proof.
  split; [reflexivity |]. split; [reflexivity |].
  destruct (@invoker_contract failing_host "dirsearch"
              (@Dirsearch._run_dirsearch failing_host) [Some "-q"] ["-q"]
              fresh_world (Completed 2 "out" "err") empty_fs
              (or_introl (conj eq_refl eq_refl)) eq_refl eq_refl)
    as (_ & _ & H).
  apply H. discriminate.
Defined.

(** ** Malformed free-form flags *)

(** [C4] A [custom_scan] call, of either server, whose [extra_args] ends
    inside a quote raises a [ValueError], with one of the lexer's two
    messages, and hands back the world as it was: nothing was launched. *)
Theorem custom_scan_unterminated_quote (host : Host) (url target : string)
    (extra_args : string) (w : world) :
  unterminated_quote extra_args = true ->
  exists msg,
    (msg = "No closing quotation" \/ msg = "No escaped character")
    /\ Dirsearch.custom_scan url extra_args w = (Raise (ValueError msg), w)
    /\ Nmap.custom_scan target extra_args w = (Raise (ValueError msg), w)
    /\ launched w (snd (Dirsearch.custom_scan url extra_args w)) = []
    /\ launched w (snd (Nmap.custom_scan target extra_args w)) = [].
Proof.
  intros H. destruct (split_open_quote _ H) as [msg Hs].
  exists msg. split.
  { destruct (split_raises _ Hs) as [E | E]; inversion E; auto. }
  assert (Hd : Dirsearch.custom_scan url extra_args w = (Raise (ValueError msg), w)).
  { unfold Dirsearch.custom_scan, Dirsearch.custom_scan_args.
    rewrite Hs. reflexivity. }
  assert (Hn : Nmap.custom_scan target extra_args w = (Raise (ValueError msg), w)).
  { unfold Nmap.custom_scan, Nmap.custom_scan_args.
    rewrite Hs. reflexivity. }
  rewrite Hd, Hn. repeat split; unfold launched; simpl; apply skipn_all.
Qed.

Lemma custom_scan_unterminated_quote_witness :
  unterminated_quote "--header 'X-Scan: 1" = true
  /\ exists msg,
       (msg = "No closing quotation" \/ msg = "No escaped character")
       /\ @Dirsearch.custom_scan failing_host "http://h/" "--header 'X-Scan: 1"
            fresh_world = (Raise (ValueError msg), fresh_world)
       /\ @Nmap.custom_scan failing_host "10.0.0.1" "--header 'X-Scan: 1"
            fresh_world = (Raise (ValueError msg), fresh_world)
       /\ launched fresh_world
            (snd (@Dirsearch.custom_scan failing_host "http://h/"
                    "--header 'X-Scan: 1" fresh_world)) = []
       /\ launched fresh_world
            (snd (@Nmap.custom_scan failing_host "10.0.0.1"
                    "--header 'X-Scan: 1" fresh_world)) = [].
Proof.
  split; [reflexivity |].
  exact (@custom_scan_unterminated_quote failing_host "http://h/" "10.0.0.1"
           "--header 'X-Scan: 1" fresh_world eq_refl).
Defined.

(** ** Calls and the lists they build *)

(** Every tool hands to its invoker the list [built] names: an nmap call is
    [built] followed by [_run_nmap], ... *)
Lemma nmap_invoke_built (host : Host) (c : Nmap.call) (w : world) :
  Nmap.invoke c w = (args <- lift (Nmap.built c) ;; Nmap._run_nmap args) w.
Proof. destruct c; reflexivity. Qed.

(** ... a dirsearch call is [built] followed by [_run_dirsearch], ... *)
Lemma dirsearch_invoke_built (host : Host) (tmp : string)
    (c : Dirsearch.call) (w : world) :
  match c with
  | Dirsearch.Json_report_scan _ _ _ _ => True
  | _ =>
      Dirsearch.invoke c w
      = (args <- lift (Dirsearch.built tmp c) ;;
         Dirsearch._run_dirsearch args) w
  end.
Proof. destruct c; first [reflexivity | exact I]. Qed.

(** ... and [json_report_scan] does the same inside its temporary
    directory, then reads the report. *)
Lemma json_report_scan_built (host : Host) (url : string)
    (e : kwarg (option string)) (t : kwarg (option Z)) (s : kwarg bool)
    (w : world) :
  Dirsearch.invoke (Dirsearch.Json_report_scan url e t s) w
  = with_TemporaryDirectory (fun tmp =>
      args <- lift (Dirsearch.built tmp (Dirsearch.Json_report_scan url e t s)) ;;
      _ <- Dirsearch._run_dirsearch args ;;
      read_text (os_path_join tmp "report.json")) w.
Proof. reflexivity. Qed.

(** ** The nmap argument lists *)

(** Every list but that of [ping_sweep] starts with [-Pn]. *)
Lemma nmap_built_head (c : Nmap.call) (l : list token) :
  Nmap.built c = Return l ->
  Nmap.is_ping_sweep c = false ->
  hd_error l = Some (Some "-Pn").
Proof.
  destruct c; simpl; intros H Hp; try discriminate;
    try (inversion H; subst; reflexivity).
  unfold Nmap.custom_scan_args in H.
  destruct (Shlex.split extra_args); inversion H; reflexivity.
Qed.

(** Claim C1 as it is written fails on the host-discovery tool: the network
    value is the second token, so [-Pn] given as the network is in the list. *)
Lemma ping_sweep_carries_given_flag :
  Nmap.built (Nmap.Ping_sweep "-Pn") = Return [Some "-sn"; Some "-Pn"]
  /\ In (Some "-Pn") (Nmap.ping_sweep_args "-Pn").
Proof. split; [reflexivity | simpl; auto]. Qed.

(** [C1, amended] Every argument list built by a tool other than
    [ping_sweep] has [-Pn] as its first token; the list of [ping_sweep] is
    [-sn] followed by the network value, and holds [-Pn] only when the caller
    gave it as the network. *)
Theorem pn_policy (c : Nmap.call) (l : list token) :
  Nmap.built c = Return l ->
  if Nmap.is_ping_sweep c
  then l = [Some "-sn"; Some (Nmap.target_of c)]
       /\ (In (Some "-Pn") l <-> Nmap.target_of c = "-Pn")
  else hd_error l = Some (Some "-Pn") /\ In (Some "-Pn") l.
Proof.
  intros H. destruct (Nmap.is_ping_sweep c) eqn:Ep.
  - destruct c; try discriminate. simpl in *. inversion H; subst. clear H.
    split; [reflexivity |]. unfold Nmap.ping_sweep_args. simpl. split.
    + intros [E | [E | []]]; [discriminate | congruence].
    + intros ->. auto.
  - pose proof (nmap_built_head c H Ep) as Hh. split; [exact Hh |].
    destruct l as [| x l]; [discriminate |]. inversion Hh; subst. now left.
Qed.

Lemma pn_policy_witness :
  Nmap.built (Nmap.Custom_scan "10.0.0.1" "-p 80,443 --script vuln")
  = Return [Some "-Pn"; Some "-p"; Some "80,443"; Some "--script";
            Some "vuln"; Some "10.0.0.1"]
  /\ hd_error [Some "-Pn"; Some "-p"; Some "80,443"; Some "--script";
               Some "vuln"; Some "10.0.0.1"] = Some (Some "-Pn")
  /\ In (Some "-Pn") [Some "-Pn"; Some "-p"; Some "80,443"; Some "--script";
                      Some "vuln"; Some "10.0.0.1"].
Proof.
  split; [reflexivity |].
  exact (@pn_policy (Nmap.Custom_scan "10.0.0.1" "-p 80,443 --script vuln")
           _ eq_refl).
Defined.

(** [C9] With [timing=None] the four port scans still carry a timing token:
    the formatted [None], that is the literal [-None]. *)
Theorem timing_none_is_formatted (target ports : string) (p : kwarg string) :
  In (Some "-None") (Nmap.full_port_scan_args target None)
  /\ In (Some "-None") (Nmap.stealth_syn_scan_args target ports None)
  /\ In (Some "-None") (Nmap.tcp_connect_scan_args target ports None)
  /\ In (Some "-None") (Nmap.udp_scan_args target ports None)
  /\ (exists l, Nmap.built (Nmap.Full_port_scan target (Given None)) = Return l
                /\ nth_error l 4 = Some (Some "-None"))
  /\ (exists l, Nmap.built (Nmap.Stealth_syn_scan target p (Given None)) = Return l
                /\ nth_error l 4 = Some (Some "-None"))
  /\ (exists l, Nmap.built (Nmap.Tcp_connect_scan target p (Given None)) = Return l
                /\ nth_error l 4 = Some (Some "-None"))
  /\ (exists l, Nmap.built (Nmap.Udp_scan target p (Given None)) = Return l
                /\ nth_error l 4 = Some (Some "-None")).
Proof.
  repeat split; try (simpl; tauto);
    eexists; (split; [reflexivity | reflexivity]).
Qed.

Lemma last_app_one (A : Type) (l : list A) (x d : A) : last (l ++ [x]) d = x.
Proof.
  induction l as [| y l IH]; [reflexivity |].
  simpl. destruct (l ++ [x]) eqn:E; [destruct l; discriminate | exact IH].
Qed.

(** [C10] Whenever an nmap tool builds an argument list, its last token is
    the target (for [ping_sweep], the network); for [custom_scan] the list is
    [-Pn], the tokens of [extra_args] in order, and then the target. *)
Theorem target_is_last (c : Nmap.call) (l : list token) :
  Nmap.built c = Return l ->
  last l None = Some (Nmap.target_of c)
  /\ match c with
     | Nmap.Custom_scan target extra_args =>
         exists extra,
           Shlex.split extra_args = Return extra
           /\ l = Some "-Pn" :: map Some extra ++ [Some target]
     | _ => True
     end.
Proof.
  destruct c; simpl; intros H;
    try (match type of H with Return _ = Return _ => inversion H; subst; clear H end).
  - split; [reflexivity | exact I].
  - split; [reflexivity | exact I].
  - split; [reflexivity | exact I].
  - split; [reflexivity | exact I].
  - split; [destruct (or_default quick false); reflexivity | exact I].
  - split; [reflexivity | exact I].
  - split; [reflexivity | exact I].
  - unfold Nmap.custom_scan_args in H.
    destruct (Shlex.split extra_args) as [extra | e]; inversion H; subst.
    split.
    + unfold Nmap._add_pn.
      change (Some "-Pn" :: map Some extra ++ [Some target])
        with ((Some "-Pn" :: map Some extra) ++ [Some target]).
      apply last_app_one.
    + exists extra. split; reflexivity.
Qed.

Lemma target_is_last_witness :
  Nmap.built (Nmap.Custom_scan "10.0.0.1" "-sV -p '22,80'")
  = Return [Some "-Pn"; Some "-sV"; Some "-p"; Some "22,80"; Some "10.0.0.1"]
  /\ last [Some "-Pn"; Some "-sV"; Some "-p"; Some "22,80"; Some "10.0.0.1"] None
     = Some "10.0.0.1"
  /\ exists extra,
       Shlex.split "-sV -p '22,80'" = Return extra
       /\ [Some "-Pn"; Some "-sV"; Some "-p"; Some "22,80"; Some "10.0.0.1"]
          = Some "-Pn" :: map Some extra ++ [Some "10.0.0.1"].
Proof.
  split; [reflexivity |].
  exact (@target_is_last (Nmap.Custom_scan "10.0.0.1" "-sV -p '22,80'")
           _ eq_refl).
Defined.

(** ** The dirsearch argument lists *)

(** Case analysis on the comparisons of a caller's string with a flag that
    are left once [has_pair] has run over a list. *)
Ltac settle_pairs :=
  repeat (cbn;
          match goal with
          | |- context [if truthy_str ?e then _ else _] =>
              destruct (truthy_str e)
          | |- context [Z.eqb ?n 0%Z] => is_var n; destruct (Z.eqb n 0%Z)
          | |- context [token_eqb ?x _] => is_var x; destruct x
          | |- context [String.eqb ?x ?y] =>
              is_var x; destruct (String.eqb x y) eqn:?
          | |- context [String.eqb (str_int ?n) ?y] =>
              destruct (String.eqb (str_int n) y) eqn:?
          end);
  cbn; try reflexivity; try discriminate.

Lemma base_args_truthy (t : option Z) (ie : bool) (rest : list token) :
  truthy_int t = true ->
  has_pair (Some "-t") (Some (str_int_opt t))
    (Dirsearch._base_args (Given t) (Given ie) ++ rest) = true.
Proof.
  intros H. unfold Dirsearch._base_args. cbn [or_default]. rewrite H.
  destruct ie; cbn [negb app]; apply has_pair_later, has_pair_here.
Qed.

Lemma truthy_int_false (t : option Z) :
  truthy_int t = false -> t = None \/ t = Some 0%Z.
Proof.
  destruct t as [n |]; [| now left]. simpl. rewrite negb_false_iff.
  intros H. apply Z.eqb_eq in H. subst. now right.
Qed.

Lemma threads_flag_present (tmp : string) (c : Dirsearch.call)
    (l : list token) :
  Dirsearch.built tmp c = Return l ->
  truthy_int (Dirsearch.threads_of c) = true ->
  has_pair (Some "-t") (Some (str_int_opt (Dirsearch.threads_of c))) l = true.
Proof.
  intros H Ht.
  destruct c; cbn [Dirsearch.built Dirsearch.threads_of] in *;
    try (inversion H; subst; clear H;
         unfold Dirsearch.quick_scan_args, Dirsearch.recursive_scan_args,
           Dirsearch.deep_recursive_scan_args, Dirsearch.subdirs_scan_args,
           Dirsearch.wordlist_scan_args, Dirsearch.json_report_scan_args,
           Dirsearch.proxy_scan_args, Dirsearch.authenticated_scan_args;
         cbv zeta;
         repeat match goal with
                | |- context [match ?d with Some _ => _ | None => _ end] =>
                    destruct d
                | |- context [if truthy_str ?e then _ else _] =>
                    destruct (truthy_str e)
                end;
         rewrite <- ?app_assoc; apply base_args_truthy; assumption).
  unfold Dirsearch.custom_scan_args in H.
  destruct (Shlex.split extra_args); inversion H. reflexivity.
Qed.

Lemma threads_flag_absent (tmp : string) (c : Dirsearch.call)
    (l : list token) :
  Dirsearch.built tmp c = Return l ->
  truthy_int (Dirsearch.threads_of c) = false ->
  has_pair (Some "-t") (Some (str_int_opt (Dirsearch.threads_of c))) l = false.
Proof.
  intros H Ht.
  destruct c; cbn [Dirsearch.built Dirsearch.threads_of] in *;
    try discriminate;
    inversion H; subst; clear H;
    destruct (truthy_int_false _ Ht) as [E | E]; rewrite E;
    unfold Dirsearch.quick_scan_args, Dirsearch.recursive_scan_args,
      Dirsearch.deep_recursive_scan_args, Dirsearch.subdirs_scan_args,
      Dirsearch.wordlist_scan_args, Dirsearch.json_report_scan_args,
      Dirsearch.proxy_scan_args, Dirsearch.authenticated_scan_args,
      Dirsearch._base_args;
    cbn [or_default truthy_int Z.eqb negb];
    repeat match goal with
           | |- context [or_default ?k ?d] =>
               let v := fresh "v" in
               generalize (or_default k d); intros v
           end;
    repeat match goal with
           | v : bool |- _ => destruct v
           | v : option Z |- _ => destruct v
           end;
    settle_pairs.
Qed.

(** [C7] In the argument list of every dirsearch call, [-t] immediately
    followed by [str(threads)] occurs exactly when the value bound to
    [threads] is truthy.  A call that leaves [threads] out binds it to 20
    (40 for [deep_recursive_scan]) and builds the list of the call that gives
    that value; [None] and [0] leave the base flags without any [-t]. *)
Theorem threads_flag (tmp : string) (c : Dirsearch.call) (l : list token) :
  Dirsearch.built tmp c = Return l ->
  has_pair (Some "-t") (Some (str_int_opt (Dirsearch.threads_of c))) l
  = truthy_int (Dirsearch.threads_of c)
  /\ (Dirsearch.threads_kwarg c = Omitted ->
      Dirsearch.threads_of c = Some (Dirsearch.default_threads c)
      /\ Dirsearch.built tmp
           (Dirsearch.set_threads
              (Given (Some (Dirsearch.default_threads c))) c)
         = Return l)
  /\ (forall ie,
         In (Some "-t") (Dirsearch._base_args (Given None) ie) -> False)
  /\ (forall ie,
         In (Some "-t") (Dirsearch._base_args (Given (Some 0%Z)) ie) -> False)
  /\ Dirsearch._base_args Omitted Omitted
     = [Some "-q"; Some "-t"; Some "20"; Some "--include-status"; Some "200-399"].
Proof.
  intros H. split.
  - destruct (truthy_int (Dirsearch.threads_of c)) eqn:Ht.
    + now apply threads_flag_present with (tmp := tmp).
    + now apply threads_flag_absent with (tmp := tmp).
  - split.
    { intros Ho. destruct c; cbn [Dirsearch.threads_kwarg] in Ho;
        try rewrite Ho in *; split; try reflexivity; exact H. }
    split; [| split; [| reflexivity]];
      intros [| []] Hin; cbn in Hin;
      repeat (destruct Hin as [Hin | Hin]; [discriminate |]); exact Hin.
Qed.

Lemma threads_flag_witness :
  Dirsearch.built "/tmp/tmpa"
    (Dirsearch.Deep_recursive_scan "http://h/" Omitted Omitted Omitted)
  = Return [Some "-q"; Some "-t"; Some "40"; Some "--include-status";
            Some "200-399"; Some "-u"; Some "http://h/"; Some "-e";
            Some "php,asp,aspx,jsp,html,js,txt"; Some "--deep-recursive"]
  /\ has_pair (Some "-t") (Some "40")
       [Some "-q"; Some "-t"; Some "40"; Some "--include-status";
        Some "200-399"; Some "-u"; Some "http://h/"; Some "-e";
        Some "php,asp,aspx,jsp,html,js,txt"; Some "--deep-recursive"]
     = true.
Proof.
  split; [reflexivity |].
  exact (proj1 (@threads_flag "/tmp/tmpa"
                  (Dirsearch.Deep_recursive_scan "http://h/" Omitted Omitted
                     Omitted) _ eq_refl)).
Defined.

(** Claim C2 as it is written fails on [authenticated_scan]: the caller has
    no way to ask for all status codes and asks for nothing, yet the list
    has no status filter. *)
Lemma authenticated_scan_has_no_filter :
  Dirsearch.built "/tmp/tmpa"
    (Dirsearch.Authenticated_scan "http://h/" "user:pw" Omitted Omitted Omitted)
  = Return [Some "-q"; Some "-t"; Some "20"; Some "-u"; Some "http://h/";
            Some "-e"; Some "php,asp,aspx,jsp,html,js,txt";
            Some "--auth"; Some "user:pw"; Some "--auth-type"; Some "basic"]
  /\ has_pair (Some "--include-status") (Some "200-399")
       [Some "-q"; Some "-t"; Some "20"; Some "-u"; Some "http://h/";
        Some "-e"; Some "php,asp,aspx,jsp,html,js,txt";
        Some "--auth"; Some "user:pw"; Some "--auth-type"; Some "basic"]
     = false
  /\ Dirsearch.asks_all_codes
       (Dirsearch.Authenticated_scan "http://h/" "user:pw" Omitted Omitted
          Omitted) = false.
Proof. repeat split. Qed.

(** [C2, amended] For the seven tools that take [show_errors], the list
    holds [--include-status] immediately followed by [200-399] exactly when
    [show_errors] is false.  [authenticated_scan] never has the pair.
    [custom_scan] builds its base flags without it, so the pair is in its
    list only if the tokens of [extra_args] bring it. *)
Theorem status_filter_policy (tmp : string) (c : Dirsearch.call)
    (l : list token) :
  Dirsearch.built tmp c = Return l ->
  match c with
  | Dirsearch.Authenticated_scan _ _ _ _ _ =>
      has_pair (Some "--include-status") (Some "200-399") l = false
  | Dirsearch.Custom_scan url extra_args =>
      exists extra,
        Shlex.split extra_args = Return extra
        /\ l = [Some "-q"; Some "-t"; Some "20"; Some "-u"; Some url]
               ++ map Some extra
        /\ has_pair (Some "--include-status") (Some "200-399") l
           = has_pair (Some "--include-status") (Some "200-399")
               (Some url :: map Some extra)
  | _ =>
      has_pair (Some "--include-status") (Some "200-399") l
      = negb (Dirsearch.asks_all_codes c)
  end.
Proof.
  intros H.
  destruct c; cbn [Dirsearch.built Dirsearch.asks_all_codes] in *;
    try (match type of H with Return _ = Return _ => idtac end;
         inversion H; subst; clear H;
         unfold Dirsearch.quick_scan_args, Dirsearch.recursive_scan_args,
           Dirsearch.deep_recursive_scan_args, Dirsearch.subdirs_scan_args,
           Dirsearch.wordlist_scan_args, Dirsearch.json_report_scan_args,
           Dirsearch.proxy_scan_args, Dirsearch.authenticated_scan_args,
           Dirsearch._base_args;
         cbn [or_default];
         repeat match goal with
                | |- context [or_default ?k ?d] =>
                    let v := fresh "v" in
                    generalize (or_default k d); intros v
                end;
         repeat match goal with
                | v : bool |- _ => destruct v
                | v : option Z |- _ => destruct v
                end;
         settle_pairs).
  unfold Dirsearch.custom_scan_args in H.
  destruct (Shlex.split extra_args) as [extra | e]; inversion H; subst.
  exists extra. split; [reflexivity |]. split; [reflexivity |].
  cbn. destruct (map Some extra); reflexivity.
Qed.

Lemma status_filter_policy_witness :
  Dirsearch.built "/tmp/tmpa"
    (Dirsearch.Wordlist_scan "http://h/" "words.txt" Omitted Omitted (Given true))
  = Return [Some "-q"; Some "-t"; Some "20"; Some "-u"; Some "http://h/";
            Some "-w"; Some "words.txt"]
  /\ has_pair (Some "--include-status") (Some "200-399")
       [Some "-q"; Some "-t"; Some "20"; Some "-u"; Some "http://h/";
        Some "-w"; Some "words.txt"]
     = negb (Dirsearch.asks_all_codes
               (Dirsearch.Wordlist_scan "http://h/" "words.txt" Omitted Omitted
                  (Given true))).
Proof.
  split; [reflexivity |].
  exact (@status_filter_policy "/tmp/tmpa"
           (Dirsearch.Wordlist_scan "http://h/" "words.txt" Omitted Omitted
              (Given true)) _ eq_refl).
Defined.

(** ** Free-form flags that parse *)

(** [C8] When [shlex.split] accepts [extra_args], both [custom_scan] tools
    put its tokens, in the order it gives them, after their fixed flags
    (dirsearch: the base flags and the URL; nmap: [-Pn], with the target
    after the tokens).  The tokens follow shell quoting: a list of words,
    each written plain or between single quotes and joined by blanks, is
    split back into exactly those words. *)
Theorem custom_scan_tokens (url target extra_args : string) :
  (forall extra,
      Shlex.split extra_args = Return extra ->
      Dirsearch.custom_scan_args url extra_args
      = Return ([Some "-q"; Some "-t"; Some "20"; Some "-u"; Some url]
                ++ map Some extra)
      /\ Nmap.custom_scan_args target extra_args
         = Return ([Some "-Pn"] ++ map Some extra ++ [Some target]))
  /\ (forall ws,
         Shlex.split (String.concat " " (map shell_word ws)) = Return ws)
  /\ (forall ws,
         Dirsearch.custom_scan_args url (String.concat " " (map shell_word ws))
         = Return ([Some "-q"; Some "-t"; Some "20"; Some "-u"; Some url]
                   ++ map Some ws)).
Proof.
  split; [| split].
  - intros extra H.
    unfold Dirsearch.custom_scan_args, Nmap.custom_scan_args. rewrite H.
    split; reflexivity.
  - apply split_shell_words.
  - intros ws. unfold Dirsearch.custom_scan_args.
    rewrite split_shell_words. reflexivity.
Qed.

Lemma custom_scan_tokens_witness :
  Shlex.split "-x 403 --header 'X-Scan: yes'"
  = Return ["-x"; "403"; "--header"; "X-Scan: yes"]
  /\ Dirsearch.custom_scan_args "http://h/" "-x 403 --header 'X-Scan: yes'"
     = Return ([Some "-q"; Some "-t"; Some "20"; Some "-u"; Some "http://h/"]
               ++ map Some ["-x"; "403"; "--header"; "X-Scan: yes"])
  /\ Nmap.custom_scan_args "10.0.0.1" "-x 403 --header 'X-Scan: yes'"
     = Return ([Some "-Pn"]
               ++ map Some ["-x"; "403"; "--header"; "X-Scan: yes"]
               ++ [Some "10.0.0.1"]).
Proof.
  split; [reflexivity |].
  exact (proj1 (@custom_scan_tokens "http://h/" "10.0.0.1"
                  "-x 403 --header 'X-Scan: yes'") _ eq_refl).
Defined.

(** ** The report-capturing tool *)

Lemma prefix_append_both (a b c : string) :
  String.prefix (a ++ b) (a ++ b ++ c) = true.
Proof. rewrite <- append_assoc. apply prefix_append. Qed.

(** The report lies in the temporary directory. *)
Lemma report_within (tmp : string) :
  within tmp (os_path_join tmp "report.json") = true.
Proof.
  unfold within. apply orb_true_iff. right.
  assert (E1 : os_path_join tmp "report.json"
               = if (tmp =? "") || ends_with_sep tmp
                 then (tmp ++ "report.json")%string
                 else (tmp ++ "/" ++ "report.json")%string) by reflexivity.
  assert (E2 : os_path_join tmp ""
               = if (tmp =? "") || ends_with_sep tmp
                 then (tmp ++ "")%string
                 else (tmp ++ "/")%string) by reflexivity.
  rewrite E1, E2. destruct ((tmp =? "") || ends_with_sep tmp).
  - rewrite append_empty_r. apply prefix_append.
  - exact (prefix_append_both tmp "/" "report.json").
Qed.

Lemma rmtree_gone (d : string) (f : filesystem) : gone d (rmtree d f).
Proof. intros p H. unfold rmtree. now rewrite H. Qed.

(** [C5] Once the temporary directory [tmp] of a [json_report_scan] call
    exists: if the call returns, what it returns is the text of the report
    file in [tmp] as the external binary left it; whatever way the call ends
    (return, failure of the binary, failure to read the report), [tmp] and
    everything below it, the report included, are absent afterwards.  A
    failure of the binary is passed on, and a missing report raises. *)
Theorem json_report_scan_contract (host : Host) (url : string)
    (extensions : kwarg (option string)) (threads : kwarg (option Z))
    (show_errors : kwarg bool) (w : world) (tmp : string) :
  mkdtemp (fs w) = Some tmp ->
  let report_path := os_path_join tmp "report.json" in
  let ran :=
    Dirsearch._run_dirsearch
      (Dirsearch.json_report_scan_args tmp url
         (or_default extensions Dirsearch.common_extensions)
         (or_default threads (Some 20%Z)) (or_default show_errors false))
      (World (mkdir tmp (fs w)) (spawned w)) in
  let result := Dirsearch.json_report_scan url extensions threads show_errors w in
  (forall text,
      fst result = Return text ->
      fs (snd ran) report_path = Some (File text))
  /\ gone tmp (fs (snd result))
  /\ fs (snd result) report_path = None
  /\ (forall e, fst ran = Raise e -> fst result = Raise e)
  /\ (forall out,
         fst ran = Return out -> fs (snd ran) report_path = None ->
         fst result = Raise (FileNotFoundError report_path)).
Proof.
  intros Hmk report_path ran result.
  assert (Hres : result
                 = (let '(r, w') :=
                      match ran with
                      | (Return _, w2) => read_text report_path w2
                      | (Raise e, w2) => (Raise e, w2)
                      end in
                    (r, World (rmtree tmp (fs w')) (spawned w')))).
  { unfold result, Dirsearch.json_report_scan, with_TemporaryDirectory.
    rewrite Hmk. reflexivity. }
  assert (Hgone : gone tmp (fs (snd result))).
  { rewrite Hres. destruct ran as [[out | e] w2].
    - destruct (read_text report_path w2) as [r w3]. apply rmtree_gone.
    - apply rmtree_gone. }
  split; [| split; [exact Hgone | split; [apply Hgone, report_within |]]].
  - intros text. rewrite Hres. destruct ran as [[out | e] w2]; simpl.
    + unfold read_text. destruct (fs w2 report_path) as [[| t] |]; simpl;
        intros H; inversion H; reflexivity.
    + discriminate.
  - split.
    + intros e. rewrite Hres. destruct ran as [[out | e'] w2]; simpl.
      * discriminate.
      * intros H. exact H.
    + intros out. rewrite Hres. destruct ran as [[out' | e'] w2]; simpl.
      * intros _ Hnone. unfold read_text. rewrite Hnone. reflexivity.
      * discriminate.
Qed.

(** The report written by the binary is returned, and the directory is
    removed. *)
Lemma json_report_scan_contract_witness :
  @mkdtemp reporting_host (fs fresh_world) = Some "/tmp/tmpa"
  /\ fst (@Dirsearch.json_report_scan reporting_host "http://h/" Omitted
            Omitted Omitted fresh_world) = Return "{}"
  /\ gone "/tmp/tmpa"
       (fs (snd (@Dirsearch.json_report_scan reporting_host "http://h/"
                   Omitted Omitted Omitted fresh_world))).
Proof.
  split; [reflexivity |]. split; [reflexivity |].
  exact (proj1 (proj2 (@json_report_scan_contract reporting_host "http://h/"
                         Omitted Omitted Omitted fresh_world "/tmp/tmpa"
                         eq_refl))).
Defined.

(** The two failing ways out of [json_report_scan]. *)
Example json_report_scan_binary_fails :
  exists msg,
    fst (@Dirsearch.json_report_scan failing_host "http://h/" Omitted Omitted
           Omitted fresh_world) = Raise (RuntimeError msg).
Proof. eexists. reflexivity. Qed.

Example json_report_scan_no_report :
  fst (@Dirsearch.json_report_scan silent_host "http://h/" Omitted Omitted
         Omitted fresh_world)
  = Raise (FileNotFoundError "/tmp/tmpa/report.json").
Proof. reflexivity. Qed.

(** ** Determinism of argument building *)

Lemma launched_none (w : world) : launched w w = [].
Proof. unfold launched. apply skipn_all. Qed.

Lemma launched_one (w : world) (f : filesystem) (cmd : list string) :
  launched w (World f (spawned w ++ [cmd])) = [cmd].
Proof.
  unfold launched. simpl. rewrite skipn_app, skipn_all, Nat.sub_diag.
  reflexivity.
Qed.

Lemma run_dirsearch_world (host : Host) (args : list token) (w : world) :
  snd (Dirsearch._run_dirsearch args w)
  = world_after "dirsearch" (Return args) w.
Proof.
  unfold Dirsearch._run_dirsearch, world_after, command_line, bind,
    subprocess_run.
  destruct (all_str (Some "dirsearch" :: args)) as [cmd |]; [| reflexivity].
  destruct (exec cmd (fs w)) as [[r f] |]; [| reflexivity].
  destruct (negb (returncode r =? 0)%Z); reflexivity.
Qed.

Lemma run_nmap_world (host : Host) (args : list token) (w : world) :
  snd (Nmap._run_nmap args w) = world_after "nmap" (Return args) w.
Proof.
  unfold Nmap._run_nmap, world_after, command_line, bind, subprocess_run.
  destruct (all_str (Some "nmap" :: args)) as [cmd |]; [| reflexivity].
  destruct (exec cmd (fs w)) as [[r f] |]; [| reflexivity].
  destruct (negb (returncode r =? 0)%Z); reflexivity.
Qed.

(** An nmap call changes the world only by running the command line of its
    built arguments. *)
Lemma nmap_invoke_world (host : Host) (c : Nmap.call) (w : world) :
  snd (Nmap.invoke c w) = world_after "nmap" (Nmap.built c) w.
Proof.
  destruct c; cbn [Nmap.invoke Nmap.built];
    try apply run_nmap_world.
  unfold Nmap.custom_scan, bind, lift.
  destruct (Nmap.custom_scan_args target extra_args) as [args | e].
  - apply run_nmap_world.
  - reflexivity.
Qed.

Lemma dirsearch_invoke_world (host : Host) (tmp : string)
    (c : Dirsearch.call) (w : world) :
  is_json_report_scan c = false ->
  snd (Dirsearch.invoke c w)
  = world_after "dirsearch" (Dirsearch.built tmp c) w.
Proof.
  intros Hj.
  destruct c; try discriminate; cbn [Dirsearch.invoke Dirsearch.built];
    try apply run_dirsearch_world.
  unfold Dirsearch.custom_scan, bind, lift.
  destruct (Dirsearch.custom_scan_args url extra_args) as [args | e].
  - apply run_dirsearch_world.
  - reflexivity.
Qed.

Lemma world_after_launched (host : Host) (prog : string)
    (args : outcome (list token)) (w : world) :
  (world_after prog args w = w /\ launched w (world_after prog args w) = [])
  \/ (exists cmd,
         command_line prog args = Some cmd
         /\ launched w (world_after prog args w) = [cmd]).
Proof.
  unfold world_after.
  destruct (command_line prog args) as [cmd |];
    [| left; split; [reflexivity | apply launched_none]].
  destruct (exec cmd (fs w)) as [[r f] |];
    [| left; split; [reflexivity | apply launched_none]].
  right. exists cmd. split; [reflexivity | apply launched_one].
Qed.

(** The command lines [json_report_scan] starts are those of its built
    arguments in the directory [mkdtemp] gave. *)
Lemma json_report_scan_launched (host : Host) (url : string)
    (e : kwarg (option string)) (t : kwarg (option Z)) (s : kwarg bool)
    (w : world) (tmp : string) :
  mkdtemp (fs w) = Some tmp ->
  launched w (snd (Dirsearch.json_report_scan url e t s w)) = []
  \/ exists cmd,
       command_line "dirsearch"
         (Dirsearch.built tmp (Dirsearch.Json_report_scan url e t s))
       = Some cmd
       /\ launched w (snd (Dirsearch.json_report_scan url e t s w)) = [cmd].
Proof.
  intros Hmk.
  unfold Dirsearch.json_report_scan, with_TemporaryDirectory. rewrite Hmk.
  set (args := Dirsearch.json_report_scan_args _ _ _ _ _).
  set (w1 := World (mkdir tmp (fs w)) (spawned w)).
  unfold bind.
  pose proof (run_dirsearch_world host args w1) as Hw.
  destruct (Dirsearch._run_dirsearch args w1) as [[out | err] w2];
    simpl in Hw; subst w2.
  - unfold read_text.
    destruct (world_after_launched host "dirsearch" (Return args) w1)
      as [[_ Hn] | (cmd & Hc & Hn)];
      [left | right; exists cmd; split; [exact Hc |]];
      destruct (fs (world_after "dirsearch" (Return args) w1)
                  (os_path_join tmp "report.json")) as [[| text] |];
      exact Hn.
  - destruct (world_after_launched host "dirsearch" (Return args) w1)
      as [[_ Hn] | (cmd & Hc & Hn)];
      [left | right; exists cmd; split; [exact Hc |]]; exact Hn.
Qed.

Lemma launched_agree (h1 h2 : Host) (prog : string)
    (args : outcome (list token)) (w1 w2 : world) (cmd1 cmd2 : list string) :
  launched w1 (@world_after h1 prog args w1) = [cmd1] ->
  launched w2 (@world_after h2 prog args w2) = [cmd2] ->
  cmd1 = cmd2 /\ command_line prog args = Some cmd1.
Proof.
  intros H1 H2.
  destruct (world_after_launched h1 prog args w1) as [[_ E1] | (c1 & Hc1 & E1)];
    [congruence |].
  destruct (world_after_launched h2 prog args w2) as [[_ E2] | (c2 & Hc2 & E2)];
    [congruence |].
  split; congruence.
Qed.

(** Claim C6 as it is written fails on [json_report_scan]: the same call,
    with the same parameters, passes a different last token in a world where
    the first temporary name is taken. *)
Lemma json_report_scan_tokens_differ :
  launched fresh_world
    (snd (@Dirsearch.invoke reporting_host
            (Dirsearch.Json_report_scan "http://h/" Omitted Omitted Omitted)
            fresh_world))
  = [["dirsearch"; "-q"; "-t"; "20"; "--include-status"; "200-399";
      "-u"; "http://h/"; "-e"; "php,asp,aspx,jsp,html,js,txt";
      "--format"; "json"; "-o"; "/tmp/tmpa/report.json"]]
  /\ launched used_world
       (snd (@Dirsearch.invoke reporting_host
               (Dirsearch.Json_report_scan "http://h/" Omitted Omitted Omitted)
               used_world))
     = [["dirsearch"; "-q"; "-t"; "20"; "--include-status"; "200-399";
         "-u"; "http://h/"; "-e"; "php,asp,aspx,jsp,html,js,txt";
         "--format"; "json"; "-o"; "/tmp/tmpb/report.json"]].
Proof. split; reflexivity. Qed.

(** [C6, amended] For every tool of both servers but [json_report_scan],
    the command line a call starts is that of the arguments built from its
    parameters alone: two calls with the same parameters, on any hosts and in
    any worlds, start the same command line, and the call changes the world
    only through the program it starts (building the arguments changes
    nothing).  For [json_report_scan] the same holds once both calls work in
    the same temporary directory, whose path is part of the arguments. *)
Theorem argument_building_deterministic (h1 h2 : Host) (w1 w2 : world) :
  (forall (c : Nmap.call),
      snd (@Nmap.invoke h1 c w1) = @world_after h1 "nmap" (Nmap.built c) w1
      /\ forall cmd1 cmd2,
           launched w1 (snd (@Nmap.invoke h1 c w1)) = [cmd1] ->
           launched w2 (snd (@Nmap.invoke h2 c w2)) = [cmd2] ->
           cmd1 = cmd2 /\ command_line "nmap" (Nmap.built c) = Some cmd1)
  /\ (forall (tmp : string) (c : Dirsearch.call),
         is_json_report_scan c = false ->
         snd (@Dirsearch.invoke h1 c w1)
         = @world_after h1 "dirsearch" (Dirsearch.built tmp c) w1
         /\ forall cmd1 cmd2,
              launched w1 (snd (@Dirsearch.invoke h1 c w1)) = [cmd1] ->
              launched w2 (snd (@Dirsearch.invoke h2 c w2)) = [cmd2] ->
              cmd1 = cmd2
              /\ command_line "dirsearch" (Dirsearch.built tmp c) = Some cmd1)
  /\ (forall url e t s tmp cmd1 cmd2,
         @mkdtemp h1 (fs w1) = Some tmp ->
         @mkdtemp h2 (fs w2) = Some tmp ->
         launched w1
           (snd (@Dirsearch.invoke h1 (Dirsearch.Json_report_scan url e t s) w1))
         = [cmd1] ->
         launched w2
           (snd (@Dirsearch.invoke h2 (Dirsearch.Json_report_scan url e t s) w2))
         = [cmd2] ->
         cmd1 = cmd2
         /\ command_line "dirsearch"
              (Dirsearch.built tmp (Dirsearch.Json_report_scan url e t s))
            = Some cmd1).
Proof.
  split; [| split].
  - intros c. split; [apply nmap_invoke_world |].
    intros cmd1 cmd2. rewrite !nmap_invoke_world. apply launched_agree.
  - intros tmp c Hj. split; [now apply dirsearch_invoke_world |].
    intros cmd1 cmd2.
    rewrite (dirsearch_invoke_world h1 tmp c w1 Hj),
      (dirsearch_invoke_world h2 tmp c w2 Hj).
    apply launched_agree.
  - intros url e t s tmp cmd1 cmd2 Hm1 Hm2 H1 H2.
    cbn [Dirsearch.invoke] in H1, H2.
    destruct (json_report_scan_launched h1 url e t s w1 Hm1)
      as [E1 | (c1 & Hc1 & E1)]; [congruence |].
    destruct (json_report_scan_launched h2 url e t s w2 Hm2)
      as [E2 | (c2 & Hc2 & E2)]; [congruence |].
    split; congruence.
Qed.

Lemma argument_building_deterministic_witness :
  launched fresh_world
    (snd (@Nmap.invoke reporting_host (Nmap.Aggressive_scan "10.0.0.1")
            fresh_world)) = [["nmap"; "-Pn"; "-A"; "10.0.0.1"]]
  /\ launched used_world
       (snd (@Nmap.invoke failing_host (Nmap.Aggressive_scan "10.0.0.1")
               used_world)) = [["nmap"; "-Pn"; "-A"; "10.0.0.1"]]
  /\ command_line "nmap" (Nmap.built (Nmap.Aggressive_scan "10.0.0.1"))
     = Some ["nmap"; "-Pn"; "-A"; "10.0.0.1"].
Proof.
  split; [reflexivity |]. split; [reflexivity |].
  exact (proj2 (proj2 (proj1 (@argument_building_deterministic reporting_host
                                failing_host fresh_world used_world)
                         (Nmap.Aggressive_scan "10.0.0.1"))
                  ["nmap"; "-Pn"; "-A"; "10.0.0.1"]
                  ["nmap"; "-Pn"; "-A"; "10.0.0.1"] eq_refl eq_refl)).
Defined.

(** * Further properties *)

(** ** When [shlex.split] fails *)
Section ShlexErrors.
Import Shlex.
#[local] Arguments mem : simpl never.

(** One run of the lexer's loop against the quoting position at the end of
    the string: it raises [No escaped character] when the string ends on a
    protecting backslash and [No closing quotation] when it ends in a quote;
    it breaks at the end of the input only when the string ends outside
    quotes; a break at a blank leaves the same question for the rest. *)
Lemma read_loop_quote_end (s : list ascii) :
  forall st tok qd es inside protected,
    position st es = Some (inside, protected) ->
    match read_loop s st tok qd es with
    | Raise e =>
        (e = ValueError "No escaped character"
         /\ snd (quote_end_from s inside protected) = true)
        \/ (e = ValueError "No closing quotation"
            /\ snd (quote_end_from s inside protected) = false
            /\ fst (quote_end_from s inside protected) <> None)
    | Return b =>
        (b_state b = AtEof /\ b_rest b = []
         /\ quote_end_from s inside protected = (None, false))
        \/ (b_state b = InSpace
            /\ length (b_rest b) < length s
            /\ (negb (String.eqb (b_token b) "") || b_quoted b = true)
            /\ quote_end_from (b_rest b) None false
               = quote_end_from s inside protected)
    end.
Proof.
  induction s as [| c s IH]; intros st tok qd es inside protected Hpos.
  - destruct st; simpl in *; try discriminate.
    + inversion Hpos; subst. left. auto.
    + inversion Hpos; subst. left. auto.
    + destruct (mem q quotes); inversion Hpos; subst.
      right. split; [reflexivity | split; [reflexivity | discriminate]].
    + left. split; [reflexivity |].
      destruct es; try discriminate; [inversion Hpos; reflexivity |].
      destruct (mem q quotes); inversion Hpos; reflexivity.
  - remember (quote_end_from (c :: s) inside protected) as target eqn:Ht.
    assert (Hstep : forall st' tok' qd' es' inside' protected',
               position st' es' = Some (inside', protected') ->
               quote_end_from s inside' protected' = target ->
               match read_loop s st' tok' qd' es' with
               | Raise e =>
                   (e = ValueError "No escaped character" /\ snd target = true)
                   \/ (e = ValueError "No closing quotation"
                       /\ snd target = false /\ fst target <> None)
               | Return b =>
                   (b_state b = AtEof /\ b_rest b = [] /\ target = (None, false))
                   \/ (b_state b = InSpace
                       /\ length (b_rest b) < length (c :: s)
                       /\ (negb (String.eqb (b_token b) "") || b_quoted b = true)
                       /\ quote_end_from (b_rest b) None false = target)
               end).
    { intros st' tok' qd' es' inside' protected' H1 H2.
      specialize (IH st' tok' qd' es' _ _ H1). rewrite H2 in IH.
      destruct (read_loop s st' tok' qd' es') as [b | e]; [| exact IH].
      destruct IH as [IH | (Ha & Hb & Hc & Hd)]; [left; exact IH | right].
      repeat split; try assumption. simpl. lia. }
    destruct st; simpl in Hpos; try discriminate.
    + (* InSpace *)
      inversion Hpos; subst inside protected. simpl in Ht. simpl.
      destruct (mem c whitespace) eqn:Ews.
      * destruct (mem_whitespace _ Ews) as [Hq He].
        rewrite mem_quotes in Hq. rewrite mem_escape in He.
        rewrite He, Hq in Ht.
        destruct (negb (tok =? "") || qd) eqn:E.
        -- right. simpl. repeat split; auto.
        -- eapply Hstep; [reflexivity | now symmetry].
      * destruct (mem c escape) eqn:Ee.
        { rewrite mem_escape in Ee. rewrite Ee in Ht.
          eapply Hstep; [reflexivity | now symmetry]. }
        rewrite mem_escape in Ee. rewrite Ee in Ht.
        destruct (mem c quotes) eqn:Eq.
        { pose proof Eq as Eq'. rewrite mem_quotes in Eq'. rewrite Eq' in Ht.
          destruct (mem c wordchars) eqn:Ew;
            [apply wordchars_not_quote in Ew; congruence |].
          eapply Hstep; [simpl; rewrite Eq; reflexivity | now symmetry]. }
        pose proof Eq as Eq'. rewrite mem_quotes in Eq'. rewrite Eq' in Ht.
        destruct (mem c wordchars);
          (eapply Hstep; [reflexivity | now symmetry]).
    + (* InWord *)
      inversion Hpos; subst inside protected. simpl in Ht. simpl.
      destruct (mem c whitespace) eqn:Ews.
      * destruct (mem_whitespace _ Ews) as [Hq He].
        rewrite mem_quotes in Hq. rewrite mem_escape in He.
        rewrite He, Hq in Ht.
        destruct (negb (tok =? "") || qd) eqn:E.
        -- right. simpl. repeat split; auto.
        -- eapply Hstep; [reflexivity | now symmetry].
      * destruct (mem c quotes) eqn:Eq.
        { pose proof (quote_not_escape _ Eq) as Ee.
          rewrite mem_escape in Ee. rewrite Ee in Ht.
          pose proof Eq as Eq'. rewrite mem_quotes in Eq'. rewrite Eq' in Ht.
          eapply Hstep; [simpl; rewrite Eq; reflexivity | now symmetry]. }
        pose proof Eq as Eq'. rewrite mem_quotes in Eq'.
        destruct (mem c escape) eqn:Ee; rewrite mem_escape in Ee;
          rewrite Ee, ?Eq' in Ht;
          (eapply Hstep; [reflexivity | now symmetry]).
    + (* InQuote *)
      destruct (mem q quotes) eqn:Eq; [| discriminate].
      inversion Hpos; subst inside protected. simpl in Ht. simpl.
      destruct (Ascii.eqb c q) eqn:Ecq.
      * eapply Hstep; [reflexivity | now symmetry].
      * rewrite mem_escape, mem_escapedquotes.
        rewrite (andb_comm (c =? "\")%char).
        destruct ((q =? dquote)%char && (c =? "\")%char) eqn:Ee;
          (eapply Hstep; [simpl; rewrite Eq; reflexivity | now symmetry]).
    + (* InEscape *)
      simpl.
      destruct es; try discriminate.
      * inversion Hpos; subst inside protected. simpl in Ht.
        eapply Hstep; [reflexivity | now symmetry].
      * destruct (mem q quotes) eqn:Eq; [| discriminate].
        inversion Hpos; subst inside protected. simpl in Ht.
        eapply Hstep; [simpl; rewrite Eq; reflexivity | now symmetry].
Qed.

Lemma tokens_quote_end (fuel : nat) :
  forall s,
    length s + 2 <= fuel ->
    match quote_end_from s None false with
    | (_, true) =>
        tokens fuel s InSpace = Some (Raise (ValueError "No escaped character"))
    | (Some _, false) =>
        tokens fuel s InSpace = Some (Raise (ValueError "No closing quotation"))
    | (None, false) => exists ts, tokens fuel s InSpace = Some (Return ts)
    end.
Proof.
  induction fuel as [| fuel IH]; intros s Hlen; [lia |].
  cbn [tokens]. unfold read_token.
  pose proof (read_loop_quote_end s InSpace "" false InSpace
                (inside := None) (protected := false) eq_refl) as H.
  destruct (read_loop s InSpace "" false InSpace) as [b | e].
  - destruct H as [(Hs & Hr & Hq) | (Hs & Hl & Htok & Hq)].
    + rewrite Hq, Hs, Hr.
      destruct (negb (b_quoted b) && (b_token b =? ""));
        [eexists; reflexivity |].
      destruct fuel as [| fuel]; [lia |]. eexists; reflexivity.
    + replace (negb (b_quoted b) && (b_token b =? "")) with false
        by (destruct (b_quoted b), (b_token b =? ""); simpl in *; congruence).
      rewrite Hs. specialize (IH (b_rest b)). rewrite Hq in IH.
      destruct (quote_end_from s None false) as [[q |] []];
        try (rewrite IH by lia; reflexivity).
      destruct IH as [ts Hts]; [lia |]. rewrite Hts. eexists; reflexivity.
  - destruct (quote_end_from s None false) as [i p]. simpl in H.
    destruct H as [[-> ->] | (-> & -> & Hi)].
    + destruct i; reflexivity.
    + destruct i; [reflexivity | congruence].
Qed.

(** [quote_end_from] extends [open_quote_from]. *)
Lemma open_quote_quote_end (s : list ascii) :
  forall inside protected,
    open_quote_from s inside protected
    = fst (quote_end_from s inside protected).
Proof.
  induction s as [| c s IH]; intros inside protected; [reflexivity |].
  simpl. destruct protected; [apply IH |].
  destruct inside as [q |].
  - destruct (Ascii.eqb c q); [apply IH |].
    destruct ((q =? dquote)%char && (c =? "\")%char); apply IH.
  - destruct (Ascii.eqb c "\"); [apply IH |].
    destruct ((c =? "'")%char || (c =? dquote)%char); apply IH.
Qed.

(** The outcome of [shlex.split] read off the end of the string. *)
Lemma split_by_quote_end (s : string) :
  match quote_end s with
  | (_, true) => split s = Raise (ValueError "No escaped character")
  | (Some _, false) => split s = Raise (ValueError "No closing quotation")
  | (None, false) => exists ts, split s = Return ts
  end.
Proof.
  pose proof (@tokens_quote_end _ (list_ascii_of_string s)
                (le_n (length (list_ascii_of_string s) + 2))) as H.
  pose proof (split_tokens s) as Hs. unfold quote_end.
  destruct (quote_end_from (list_ascii_of_string s) None false) as [[q |] []];
    try (rewrite H in Hs; now inversion Hs).
  destruct H as [ts Hts]. exists ts. rewrite Hts in Hs. now inversion Hs.
Qed.

End ShlexErrors.

(** [X1] [shlex.split], and with it the building of a [custom_scan] list,
    fails in exactly two cases, decided by where the string ends: after a
    protecting backslash it raises [No escaped character]; inside a quote,
    and not after such a backslash, [No closing quotation]; in every other
    case it returns a list of tokens. *)
Theorem split_fails_exactly (s : string) :
  (snd (quote_end s) = true
   <-> Shlex.split s = Raise (ValueError "No escaped character"))
  /\ ((exists q, quote_end s = (Some q, false))
      <-> Shlex.split s = Raise (ValueError "No closing quotation"))
  /\ (quote_end s = (None, false) <-> exists ts, Shlex.split s = Return ts)
  /\ (forall url target,
         match Shlex.split s with
         | Raise e =>
             Dirsearch.custom_scan_args url s = Raise e
             /\ Nmap.custom_scan_args target s = Raise e
         | Return _ =>
             (exists l, Dirsearch.custom_scan_args url s = Return l)
             /\ (exists l, Nmap.custom_scan_args target s = Return l)
         end).
Proof.
  pose proof (split_by_quote_end s) as H.
  assert (Hcustom : forall url target,
             match Shlex.split s with
             | Raise e =>
                 Dirsearch.custom_scan_args url s = Raise e
                 /\ Nmap.custom_scan_args target s = Raise e
             | Return _ =>
                 (exists l, Dirsearch.custom_scan_args url s = Return l)
                 /\ (exists l, Nmap.custom_scan_args target s = Return l)
             end).
  { intros url target.
    unfold Dirsearch.custom_scan_args, Nmap.custom_scan_args.
    destruct (Shlex.split s); split; try reflexivity; eexists; reflexivity. }
  split; [| split; [| split; [| exact Hcustom]]]; clear Hcustom;
    destruct (quote_end s) as [[q |] []]; simpl in *;
    try (match type of H with ex _ => destruct H as [ts H] end);
    rewrite H; split; intros Hx;
    try reflexivity; try discriminate;
    try (match type of Hx with ex _ => destruct Hx as [? Hx]; discriminate end);
    eexists; reflexivity.
Qed.

(** ** Flags written without quoting *)
Section ShlexWords.
Import Shlex.
#[local] Arguments mem : simpl never.

Lemma push_not_empty (tok : string) (c : ascii) : (push tok c =? "") = false.
Proof. destruct tok; reflexivity. Qed.

(** On a string with no quote and no backslash, one run of the loop reads
    one word: it breaks at the blank after it, or at the end of the input
    with the last word, if any, in hand. *)
Lemma read_loop_words (s : list ascii) :
  forall st tok es,
    forallb quote_free_char s = true ->
    (st = InSpace /\ tok = "") \/ (st = InWord /\ (tok =? "") = false) ->
    exists b,
      read_loop s st tok false es = Return b
      /\ b_quoted b = false
      /\ ((b_state b = AtEof /\ b_rest b = []
           /\ words_from s tok
              = if String.eqb (b_token b) "" then [] else [b_token b])
          \/ (b_state b = InSpace
              /\ length (b_rest b) < length s
              /\ (b_token b =? "") = false
              /\ forallb quote_free_char (b_rest b) = true
              /\ words_from s tok = b_token b :: words_from (b_rest b) "")).
Proof.
  induction s as [| c s IH]; intros st tok es Hfree Hst.
  - destruct Hst as [[-> ->] | [-> Htok]]; simpl; eexists;
      (split; [reflexivity |]); (split; [reflexivity |]); left; simpl;
      rewrite ?Htok; auto.
  - simpl in Hfree. apply andb_true_iff in Hfree as [Hc Hfree].
    unfold quote_free_char in Hc.
    apply andb_true_iff in Hc as [Hq He].
    apply negb_true_iff in Hq, He.
    remember (words_from (c :: s) tok) as target eqn:Ht.
    assert (Hstep : forall st' tok',
               (st' = InSpace /\ tok' = "")
               \/ (st' = InWord /\ (tok' =? "") = false) ->
               target = words_from s tok' ->
               exists b,
                 read_loop s st' tok' false es = Return b
                 /\ b_quoted b = false
                 /\ ((b_state b = AtEof /\ b_rest b = []
                      /\ target = if String.eqb (b_token b) "" then []
                                  else [b_token b])
                     \/ (b_state b = InSpace
                         /\ length (b_rest b) < length (c :: s)
                         /\ (b_token b =? "") = false
                         /\ forallb quote_free_char (b_rest b) = true
                         /\ target = b_token b :: words_from (b_rest b) ""))).
    { intros st' tok' Hst' Hw.
      destruct (IH st' tok' es Hfree Hst') as (b & Hb & Hqd & Hcases).
      exists b. split; [exact Hb |]. split; [exact Hqd |]. rewrite Hw.
      destruct Hcases as [Hl | (Ha & Hlen & Hrest)]; [left; exact Hl | right].
      split; [exact Ha |]. split; [simpl; lia | exact Hrest]. }
    destruct Hst as [[-> ->] | [-> Htok]]; simpl in Ht; simpl.
    + destruct (mem c whitespace) eqn:Ews.
      * apply Hstep; [left; auto | exact Ht].
      * rewrite He, Hq.
        destruct (mem c wordchars); (apply Hstep; [right; auto | exact Ht]).
    + destruct (mem c whitespace) eqn:Ews.
      * rewrite Htok in *. simpl. eexists. split; [reflexivity |].
        split; [reflexivity |]. right. simpl. repeat split; auto.
      * rewrite He, Hq.
        apply Hstep; [right; split; [reflexivity | apply push_not_empty] |].
        exact Ht.
Qed.

Lemma tokens_words_from (fuel : nat) :
  forall s,
    forallb quote_free_char s = true ->
    length s + 2 <= fuel ->
    tokens fuel s InSpace = Some (Return (words_from s "")).
Proof.
  induction fuel as [| fuel IH]; intros s Hfree Hlen; [lia |].
  cbn [tokens]. unfold read_token.
  destruct (read_loop_words s (tok := "") InSpace Hfree
              (or_introl (conj eq_refl eq_refl)))
    as (b & Hb & Hqd & Hcases).
  rewrite Hb, Hqd. cbn [negb andb].
  destruct Hcases as [(Hs & Hr & Hw) | (Hs & Hl & Htok & Hrest & Hw)].
  - rewrite Hw. destruct (b_token b =? ""); [reflexivity |].
    rewrite Hs, Hr. destruct fuel as [| fuel]; [lia | reflexivity].
  - rewrite Htok, Hs, Hw. rewrite IH by (assumption || lia). reflexivity.
Qed.

(** A string with no quote and no backslash is split into its words. *)
Lemma split_quote_free (s : string) :
  quote_free s = true -> split s = Return (words s).
Proof.
  intros H. pose proof (split_tokens s) as Hs.
  rewrite (@tokens_words_from _ (list_ascii_of_string s) H (le_n _)) in Hs.
  now inversion Hs.
Qed.

End ShlexWords.

(** [X2] When [extra_args] has no quote character and no backslash, the
    extra tokens of either [custom_scan] are exactly its words, the maximal
    runs of non-blank characters, in order; an empty or all-blank
    [extra_args] adds no token. *)
Theorem custom_scan_plain_flags (url target extra_args : string) :
  quote_free extra_args = true ->
  Shlex.split extra_args = Return (words extra_args)
  /\ Dirsearch.custom_scan_args url extra_args
     = Return ([Some "-q"; Some "-t"; Some "20"; Some "-u"; Some url]
               ++ map Some (words extra_args))
  /\ Nmap.custom_scan_args target extra_args
     = Return (Some "-Pn" :: map Some (words extra_args) ++ [Some target])
  /\ (forallb (fun c => Shlex.mem c Shlex.whitespace)
        (list_ascii_of_string extra_args) = true ->
      words extra_args = []).
Proof.
  intros H. pose proof (split_quote_free _ H) as Hs.
  split; [exact Hs |].
  unfold Dirsearch.custom_scan_args, Nmap.custom_scan_args. rewrite Hs.
  split; [reflexivity |]. split; [reflexivity |].
  unfold words. generalize (list_ascii_of_string extra_args).
  induction l as [| c l IH]; [reflexivity |].
  simpl. intros Hb. apply andb_true_iff in Hb as [Hc Hl].
  rewrite Hc. simpl. exact (IH Hl).
Qed.

Lemma custom_scan_plain_flags_witness :
  quote_free "  -x 403,404   --random-agent " = true
  /\ Shlex.split "  -x 403,404   --random-agent "
     = Return ["-x"; "403,404"; "--random-agent"]
  /\ Dirsearch.custom_scan_args "http://h/" "  -x 403,404   --random-agent "
     = Return [Some "-q"; Some "-t"; Some "20"; Some "-u"; Some "http://h/";
               Some "-x"; Some "403,404"; Some "--random-agent"].
Proof.
  split; [reflexivity |].
  pose proof (@custom_scan_plain_flags "http://h/" "10.0.0.1"
                "  -x 403,404   --random-agent " eq_refl) as H.
  split; [exact (proj1 H) | exact (proj1 (proj2 H))].
Defined.

(** ** A whole tool call *)

Lemma all_str_some (l : list string) : all_str (map Some l) = Some l.
Proof. induction l as [| x l IH]; simpl; [reflexivity | now rewrite IH]. Qed.

Lemma all_str_app (a b : list token) :
  all_str (a ++ b)
  = match all_str a, all_str b with
    | Some x, Some y => Some (x ++ y)
    | _, _ => None
    end.
Proof.
  induction a as [| [s |] a IH]; simpl.
  - destruct (all_str b); reflexivity.
  - rewrite IH. destruct (all_str a), (all_str b); reflexivity.
  - reflexivity.
Qed.

Lemma run_nmap_outcome (host : Host) (args : list token) (strs : list string)
    (w : world) :
  all_str args = Some strs ->
  Nmap._run_nmap args w = run_outcome "nmap" "Nmap" strs w.
Proof.
  intros H. unfold Nmap._run_nmap, run_outcome, bind, subprocess_run.
  cbn [all_str]. rewrite H. cbn [hd].
  destruct (exec ("nmap" :: strs) (fs w)) as [[r f] |]; [| reflexivity].
  destruct (returncode r =? 0)%Z; reflexivity.
Qed.

Lemma run_dirsearch_outcome (host : Host) (args : list token)
    (strs : list string) (w : world) :
  all_str args = Some strs ->
  Dirsearch._run_dirsearch args w = run_outcome "dirsearch" "dirsearch" strs w.
Proof.
  intros H. unfold Dirsearch._run_dirsearch, run_outcome, bind, subprocess_run.
  cbn [all_str]. rewrite H. cbn [hd].
  destruct (exec ("dirsearch" :: strs) (fs w)) as [[r f] |]; [| reflexivity].
  destruct (returncode r =? 0)%Z; reflexivity.
Qed.

Lemma run_dirsearch_none (host : Host) (args : list token) (w : world) :
  all_str args = None ->
  Dirsearch._run_dirsearch args w = (Raise none_rejected, w).
Proof.
  intros H. unfold Dirsearch._run_dirsearch, bind, subprocess_run.
  cbn [all_str]. rewrite H. reflexivity.
Qed.

(** The lists of the nmap tools hold no [None]. *)
Lemma nmap_built_strings (c : Nmap.call) (args : list token) :
  Nmap.built c = Return args -> exists strs, all_str args = Some strs.
Proof.
  destruct c; cbn [Nmap.built]; intros H;
    try (inversion H; subst; clear H; eexists; reflexivity).
  - inversion H; subst; clear H.
    destruct (or_default quick false); eexists; reflexivity.
  - unfold Nmap.custom_scan_args in H.
    destruct (Shlex.split extra_args) as [extra | e]; inversion H; subst.
    unfold Nmap._add_pn. cbn [all_str].
    rewrite all_str_app, all_str_some. cbn [all_str]. eexists; reflexivity.
Qed.

(** [X3] An nmap tool call is its built list handed to one run of the
    program [nmap]: if [extra_args] does not parse, the call raises and the
    world is as before; else the list holds only strings, at most one
    process is started, its command line is [nmap] followed by the list, and
    the call returns the child's standard output on exit status 0 and raises
    [RuntimeError] on any other. *)
Theorem nmap_call_contract (host : Host) (c : Nmap.call) (w : world) :
  match Nmap.built c with
  | Raise e => Nmap.invoke c w = (Raise e, w)
  | Return args =>
      exists strs,
        all_str args = Some strs
        /\ Nmap.invoke c w = run_outcome "nmap" "Nmap" strs w
        /\ (launched w (snd (Nmap.invoke c w)) = []
            \/ launched w (snd (Nmap.invoke c w)) = [("nmap" :: strs)])
  end.
Proof.
  rewrite nmap_invoke_built. unfold bind, lift.
  destruct (Nmap.built c) as [args | e] eqn:E; [| reflexivity].
  destruct (nmap_built_strings c E) as [strs Hs].
  exists strs. split; [exact Hs |].
  rewrite (run_nmap_outcome host args w Hs). split; [reflexivity |].
  unfold run_outcome.
  destruct (exec ("nmap" :: strs) (fs w)) as [[r f] |]; simpl.
  - right. apply launched_one.
  - left. apply launched_none.
Qed.

(** A dirsearch list holds a [None] exactly when the call puts an
    [extensions] that is [None] in it. *)
Lemma dirsearch_built_strings (tmp : string) (c : Dirsearch.call)
    (args : list token) :
  Dirsearch.built tmp c = Return args ->
  (all_str args = None <-> passed_extensions c = Some None).
Proof.
  destruct c; cbn [Dirsearch.built passed_extensions]; intros H;
    try (match type of H with Return _ = Return _ => idtac end;
         inversion H; subst; clear H;
         unfold Dirsearch.quick_scan_args, Dirsearch.recursive_scan_args,
           Dirsearch.deep_recursive_scan_args, Dirsearch.subdirs_scan_args,
           Dirsearch.wordlist_scan_args, Dirsearch.json_report_scan_args,
           Dirsearch.proxy_scan_args, Dirsearch.authenticated_scan_args,
           Dirsearch._base_args;
         cbn [or_default];
         repeat match goal with
                | |- context [or_default ?k ?d] =>
                    let v := fresh "v" in
                    generalize (or_default k d); intros v
                end;
         repeat match goal with
                | v : bool |- _ => destruct v
                | v : option Z |- _ => destruct v as [? |]
                | v : option string |- _ => destruct v as [? |]
                end;
         cbn;
         repeat match goal with
                | |- context [Z.eqb ?n 0%Z] => destruct (Z.eqb n 0%Z); cbn
                | |- context [String.eqb ?x ""] =>
                    destruct (String.eqb x ""); cbn
                end;
         split; intros Hx; congruence).
  unfold Dirsearch.custom_scan_args in H.
  destruct (Shlex.split extra_args) as [extra | e]; inversion H; subst.
  cbn. rewrite all_str_some. split; intros Hx; discriminate.
Qed.

(** A dirsearch call other than [json_report_scan] is its built list
    followed by the invoker. *)
Lemma dirsearch_invoke_bind (host : Host) (tmp : string)
    (c : Dirsearch.call) (w : world) :
  is_json_report_scan c = false ->
  Dirsearch.invoke c w
  = (args <- lift (Dirsearch.built tmp c) ;; Dirsearch._run_dirsearch args) w.
Proof.
  intros Hj. pose proof (dirsearch_invoke_built host tmp c w) as H.
  destruct c; try exact H. discriminate.
Qed.

(** [X4] A dirsearch tool call other than [json_report_scan] is its built
    list handed to one run of the program [dirsearch]: if [extra_args] does
    not parse, or the list holds a [None], the call raises and the world is
    as before; else at most one process is started, its command line is
    [dirsearch] followed by the list, and the call returns the child's
    standard output on exit status 0 and raises [RuntimeError] on any
    other. *)
Theorem dirsearch_call_contract (host : Host) (tmp : string)
    (c : Dirsearch.call) (w : world) :
  is_json_report_scan c = false ->
  match Dirsearch.built tmp c with
  | Raise e => Dirsearch.invoke c w = (Raise e, w)
  | Return args =>
      match all_str args with
      | None => Dirsearch.invoke c w = (Raise none_rejected, w)
      | Some strs =>
          Dirsearch.invoke c w = run_outcome "dirsearch" "dirsearch" strs w
          /\ (launched w (snd (Dirsearch.invoke c w)) = []
              \/ launched w (snd (Dirsearch.invoke c w))
                 = [("dirsearch" :: strs)])
      end
  end.
Proof.
  intros Hj. rewrite (dirsearch_invoke_bind host tmp c w Hj).
  unfold bind, lift.
  destruct (Dirsearch.built tmp c) as [args | e]; [| reflexivity].
  destruct (all_str args) as [strs |] eqn:Hs.
  - rewrite (run_dirsearch_outcome host args w Hs). split; [reflexivity |].
    unfold run_outcome.
    destruct (exec ("dirsearch" :: strs) (fs w)) as [[r f] |]; simpl.
    + right. apply launched_one.
    + left. apply launched_none.
  - apply run_dirsearch_none. exact Hs.
Qed.

Lemma dirsearch_call_contract_witness :
  is_json_report_scan
    (Dirsearch.Proxy_scan "http://h/" "socks5://127.0.0.1:9050" Omitted
       (Given (Some 5%Z)) Omitted) = false
  /\ @Dirsearch.invoke failing_host
       (Dirsearch.Proxy_scan "http://h/" "socks5://127.0.0.1:9050" Omitted
          (Given (Some 5%Z)) Omitted) fresh_world
     = @run_outcome failing_host "dirsearch" "dirsearch"
         ["-q"; "-t"; "5"; "--include-status"; "200-399"; "-u"; "http://h/";
          "-e"; "php,asp,aspx,jsp,html,js,txt";
          "--proxy"; "socks5://127.0.0.1:9050"] fresh_world.
Proof.
  split; [reflexivity |].
  exact (proj1 (@dirsearch_call_contract failing_host "/tmp/tmpa"
                  (Dirsearch.Proxy_scan "http://h/" "socks5://127.0.0.1:9050"
                     Omitted (Given (Some 5%Z)) Omitted)
                  fresh_world eq_refl)).
Defined.

(** [X5] The seven dirsearch tools that put [extensions] in the list as it
    is fail on [extensions=None]: the call raises [TypeError] and starts no
    process ([json_report_scan] after creating its temporary directory,
    which is removed).  In no other case does a dirsearch list hold a
    [None]. *)
Theorem none_extensions_rejected (host : Host) (tmp : string)
    (c : Dirsearch.call) (w : world) :
  (passed_extensions c = Some None ->
   (is_json_report_scan c = false ->
    Dirsearch.invoke c w = (Raise none_rejected, w))
   /\ (is_json_report_scan c = true -> mkdtemp (fs w) = Some tmp ->
       fst (Dirsearch.invoke c w) = Raise none_rejected
       /\ spawned (snd (Dirsearch.invoke c w)) = spawned w
       /\ gone tmp (fs (snd (Dirsearch.invoke c w)))))
  /\ (passed_extensions c <> Some None ->
      forall args,
        Dirsearch.built tmp c = Return args ->
        exists strs, all_str args = Some strs).
Proof.
  split.
  - intros Hp. split.
    + intros Hj.
      rewrite (dirsearch_invoke_bind host tmp c w Hj). unfold bind, lift.
      destruct (Dirsearch.built tmp c) as [args | e] eqn:E.
      * apply run_dirsearch_none.
        now apply (dirsearch_built_strings tmp c E).
      * destruct c; discriminate.
    + intros Hj Hmk. destruct c; try discriminate.
      cbn [Dirsearch.invoke].
      unfold Dirsearch.json_report_scan, with_TemporaryDirectory.
      rewrite Hmk. unfold bind.
      rewrite run_dirsearch_none.
      * repeat split. apply rmtree_gone.
      * apply (dirsearch_built_strings tmp
                 (Dirsearch.Json_report_scan url extensions threads show_errors)
                 eq_refl).
        exact Hp.
  - intros Hp args Hb.
    destruct (all_str args) as [strs |] eqn:E; [eexists; reflexivity |].
    apply (dirsearch_built_strings tmp c Hb) in E. contradiction.
Qed.

(** With [extensions=None], [quick_scan] starts nothing even on a host
    where every program runs. *)
Example quick_scan_none_extensions :
  @Dirsearch.invoke reporting_host
    (Dirsearch.Quick_scan "http://h/" (Given None) Omitted Omitted)
    fresh_world
  = (Raise none_rejected, fresh_world).
Proof. reflexivity. Qed.

(** ** More on the dirsearch lists *)

(** [X6] [wordlist_scan] passes [-e] followed by [extensions] exactly when
    [extensions] is a non-empty string: [None], the empty string and the
    default leave the pair out. *)
Theorem wordlist_extensions_flag (tmp url wordlists : string)
    (e : kwarg (option string)) (t : kwarg (option Z)) (s : kwarg bool)
    (l : list token) :
  Dirsearch.built tmp (Dirsearch.Wordlist_scan url wordlists e t s) = Return l ->
  has_pair (Some "-e") (or_default e (Some "")) l
  = truthy_str (or_default e (Some ""))
  /\ truthy_str (or_default Omitted (Some "")) = false.
Proof.
  cbn [Dirsearch.built]. intros H. inversion H; subst; clear H.
  split; [| reflexivity].
  unfold Dirsearch.wordlist_scan_args.
  generalize (or_default e (Some "")). intros ext.
  destruct (truthy_str ext) eqn:Et.
  - apply has_pair_iff. eexists. exists []. reflexivity.
  - unfold Dirsearch._base_args. cbn [or_default].
    generalize (or_default t (Some 20%Z)), (or_default s false).
    intros th sh.
    assert (Hext : ext = None \/ ext = Some "").
    { destruct ext as [x |]; [| now left]. simpl in Et.
      apply negb_false_iff, String.eqb_eq in Et. subst. now right. }
    destruct Hext; subst ext; destruct sh, th as [n |]; settle_pairs.
Qed.

Lemma wordlist_extensions_flag_witness :
  Dirsearch.built "/tmp/tmpa"
    (Dirsearch.Wordlist_scan "http://h/" "a.txt,b.txt" (Given (Some "php"))
       Omitted Omitted)
  = Return [Some "-q"; Some "-t"; Some "20"; Some "--include-status";
            Some "200-399"; Some "-u"; Some "http://h/"; Some "-w";
            Some "a.txt,b.txt"; Some "-e"; Some "php"]
  /\ has_pair (Some "-e") (Some "php")
       [Some "-q"; Some "-t"; Some "20"; Some "--include-status";
        Some "200-399"; Some "-u"; Some "http://h/"; Some "-w";
        Some "a.txt,b.txt"; Some "-e"; Some "php"] = true.
Proof.
  split; [reflexivity |].
  exact (proj1 (@wordlist_extensions_flag "/tmp/tmpa" "http://h/"
                  "a.txt,b.txt" (Given (Some "php")) Omitted Omitted _
                  eq_refl)).
Defined.

Lemma base_args_head (t : kwarg (option Z)) (ie : kwarg bool) :
  exists tl, Dirsearch._base_args t ie = Some "-q" :: tl.
Proof.
  unfold Dirsearch._base_args.
  destruct (truthy_int (or_default t (Some 20%Z))),
    (negb (or_default ie false)); eexists; reflexivity.
Qed.

(** [X7] Every dirsearch list starts with [-q] and holds [-u] immediately
    followed by the URL of the call, right after the base flags. *)
Theorem quiet_and_url (tmp : string) (c : Dirsearch.call) (l : list token) :
  Dirsearch.built tmp c = Return l ->
  hd_error l = Some (Some "-q")
  /\ has_pair (Some "-u") (Some (url_of c)) l = true
  /\ exists base rest,
       l = base ++ Some "-u" :: Some (url_of c) :: rest
       /\ (base = Dirsearch._base_args (Given (Dirsearch.threads_of c))
                    (Given (Dirsearch.asks_all_codes c))
           \/ base = Dirsearch._base_args (Given (Dirsearch.threads_of c))
                       (Given true)).
Proof.
  intros H.
  assert (Hshape : exists base rest,
             l = base ++ Some "-u" :: Some (url_of c) :: rest
             /\ (base = Dirsearch._base_args (Given (Dirsearch.threads_of c))
                          (Given (Dirsearch.asks_all_codes c))
                 \/ base = Dirsearch._base_args
                             (Given (Dirsearch.threads_of c)) (Given true))).
  { destruct c; cbn [Dirsearch.built url_of Dirsearch.threads_of
                       Dirsearch.asks_all_codes] in *;
      try (match type of H with Return _ = Return _ => idtac end;
           inversion H; subst; clear H;
           unfold Dirsearch.quick_scan_args, Dirsearch.recursive_scan_args,
             Dirsearch.deep_recursive_scan_args, Dirsearch.subdirs_scan_args,
             Dirsearch.wordlist_scan_args, Dirsearch.json_report_scan_args,
             Dirsearch.proxy_scan_args, Dirsearch.authenticated_scan_args;
           cbv zeta;
           repeat match goal with
                  | |- context [or_default ?k ?d] =>
                      let v := fresh "v" in
                      generalize (or_default k d); intros v
                  end;
           repeat match goal with
                  | v : option Z |- _ => destruct v
                  | |- context [if truthy_str ?e then _ else _] =>
                      destruct (truthy_str e)
                  end;
           rewrite <- ?app_assoc; cbn [app];
           (eexists; eexists; split; [reflexivity | auto])).
    unfold Dirsearch.custom_scan_args in H.
    destruct (Shlex.split extra_args) as [extra | e]; inversion H; subst.
    exists (Dirsearch._base_args Omitted (Given true)), (map Some extra).
    split; [reflexivity | right; reflexivity]. }
  destruct Hshape as (base & rest & Hl & Hbase).
  split; [| split; [| exists base, rest; auto]].
  - subst l.
    assert (Hq : exists tl, base = Some "-q" :: tl)
      by (destruct Hbase as [-> | ->]; apply base_args_head).
    destruct Hq as [tl ->]. reflexivity.
  - apply has_pair_iff. exists base, rest. exact Hl.
Qed.

Lemma quiet_and_url_witness :
  Dirsearch.built "/tmp/tmpa"
    (Dirsearch.Subdirs_scan "http://h/" "admin,api" Omitted (Given None) Omitted)
  = Return [Some "-q"; Some "--include-status"; Some "200-399"; Some "-u";
            Some "http://h/"; Some "-e"; Some "php,asp,aspx,jsp,html,js,txt";
            Some "--subdirs"; Some "admin,api"]
  /\ hd_error [Some "-q"; Some "--include-status"; Some "200-399"; Some "-u";
               Some "http://h/"; Some "-e";
               Some "php,asp,aspx,jsp,html,js,txt";
               Some "--subdirs"; Some "admin,api"] = Some (Some "-q").
Proof.
  split; [reflexivity |].
  exact (proj1 (@quiet_and_url "/tmp/tmpa"
                  (Dirsearch.Subdirs_scan "http://h/" "admin,api" Omitted
                     (Given None) Omitted) _ eq_refl)).
Defined.

(** ** The whole of [json_report_scan] *)

(** [X8] [json_report_scan], once its temporary directory [tmp] exists and
    its list holds only strings, starts exactly one [dirsearch] process, in
    the world where [tmp] is an empty new directory, with [-o] and the
    report path in [tmp] as last arguments.  On exit status 0 the call
    returns what reading the report gives; on any other status it raises
    [RuntimeError], whether or not a report was written.  Afterwards every
    path outside [tmp] is as the child left it. *)
Theorem json_report_scan_whole (host : Host) (url : string)
    (e : kwarg (option string)) (t : kwarg (option Z)) (s : kwarg bool)
    (w : world) (tmp : string) (strs : list string) (r : completed)
    (fs' : filesystem) :
  mkdtemp (fs w) = Some tmp ->
  all_str (Dirsearch.json_report_scan_args tmp url
             (or_default e Dirsearch.common_extensions)
             (or_default t (Some 20%Z)) (or_default s false)) = Some strs ->
  exec ("dirsearch" :: strs) (mkdir tmp (fs w)) = Some (r, fs') ->
  let report_path := os_path_join tmp "report.json" in
  let result := Dirsearch.json_report_scan url e t s w in
  fst result
  = (if (returncode r =? 0)%Z then read_outcome fs' report_path
     else Raise (RuntimeError
                   ("dirsearch exited with " ++ str_int (returncode r) ++ ":"
                    ++ newline ++ str_or (stderr r) (stdout r))))
  /\ spawned (snd result) = spawned w ++ [("dirsearch" :: strs)]
  /\ (exists front, strs = front ++ ["-o"; report_path])
  /\ (forall p, within tmp p = false -> fs (snd result) p = fs' p)
  /\ gone tmp (fs (snd result)).
Proof.
  intros Hmk Hs Hexec report_path result.
  assert (Hres : result
                 = ((if (returncode r =? 0)%Z then read_outcome fs' report_path
                     else Raise (RuntimeError
                                   ("dirsearch exited with "
                                    ++ str_int (returncode r) ++ ":"
                                    ++ newline
                                    ++ str_or (stderr r) (stdout r)))),
                    World (rmtree tmp fs')
                      (spawned w ++ [("dirsearch" :: strs)]))).
  { unfold result, Dirsearch.json_report_scan, with_TemporaryDirectory.
    rewrite Hmk. unfold bind at 1.
    rewrite (run_dirsearch_outcome host _ _ Hs).
    unfold run_outcome. cbn [fs spawned]. rewrite Hexec.
    destruct (returncode r =? 0)%Z; [| reflexivity].
    unfold read_text, read_outcome. cbn [fs].
    fold report_path.
    destruct (fs' report_path) as [[| text] |]; reflexivity. }
  rewrite Hres. cbn [fst snd fs spawned].
  split; [reflexivity |]. split; [reflexivity |]. split; [| split].
  - unfold Dirsearch.json_report_scan_args in Hs. fold report_path in Hs.
    rewrite all_str_app in Hs.
    destruct (all_str (Dirsearch._base_args _ _)) as [b |]; [| discriminate].
    destruct (or_default e Dirsearch.common_extensions) as [x |];
      [| discriminate].
    cbn in Hs. inversion Hs; subst.
    exists (b ++ ["-u"; url; "-e"; x; "--format"; "json"]).
    rewrite <- app_assoc. reflexivity.
  - intros p Hp. unfold rmtree. now rewrite Hp.
  - apply rmtree_gone.
Qed.

(** A child that writes the report and then exits with status 2: the report
    is lost. *)
Lemma json_report_scan_whole_witness :
  exists msg,
    fst (@Dirsearch.json_report_scan
           {| exec := fun argv f =>
                        Some (Completed 2 "" "boom",
                              fun p => if String.eqb p (last argv "")
                                       then Some (File "{}") else f p);
              mkdtemp := fun _ => Some "/tmp/tmpa" |}
           "http://h/" Omitted Omitted Omitted fresh_world)
    = Raise (RuntimeError msg)
    /\ contains "boom" msg = true.
Proof.
  pose proof
    (@json_report_scan_whole
       {| exec := fun argv f =>
                    Some (Completed 2 "" "boom",
                          fun p => if String.eqb p (last argv "")
                                   then Some (File "{}") else f p);
          mkdtemp := fun _ => Some "/tmp/tmpa" |}
       "http://h/" Omitted Omitted Omitted fresh_world "/tmp/tmpa"
       _ _ _ eq_refl eq_refl eq_refl) as H.
  eexists. split; [exact (proj1 H) | reflexivity].
Defined.

(** ** The entry point *)

(** [X9] After the entry point ran on a server whose port setting was the
    framework's 8000, the server serves on the transport of the command line
    and, under [sse], its port setting is the port of the command line;
    under any other transport the port of the command line is ignored. *)
Theorem entry_point_port (cli : namespace) (mcp : server) :
  settings_port mcp = 8000%Z ->
  serving (main cli mcp) = Some (transport cli)
  /\ (transport cli = "sse" -> settings_port (main cli mcp) = port cli)
  /\ (transport cli <> "sse" -> settings_port (main cli mcp) = 8000%Z).
Proof.
  intros H. unfold main. split; [reflexivity |]. split.
  - intros ->. cbn [String.eqb andb].
    replace ("sse" =? "sse") with true by reflexivity. cbn [andb].
    destruct (Z.eqb_spec (port cli) 8000) as [E | E]; cbn; congruence.
  - intros Hn. apply String.eqb_neq in Hn. rewrite Hn. cbn. exact H.
Qed.

Lemma entry_point_port_witness :
  settings_port (Server 8000 None) = 8000%Z
  /\ settings_port (main (Namespace "sse" 9001) (Server 8000 None)) = 9001%Z.
Proof.
  split; [reflexivity |].
  exact (proj1 (proj2 (@entry_point_port (Namespace "sse" 9001)
                         (Server 8000 None) eq_refl)) eq_refl).
Defined.

(** ** Flags added after a blank *)
Section ShlexAppend.
Import Shlex.
#[local] Arguments mem : simpl never.

(** Outside an escape, [escapedstate] is not read before it is set. *)
Lemma read_loop_escapedstate (s : list ascii) :
  forall st tok qd es1 es2,
    (forall e, st <> InEscape e) ->
    read_loop s st tok qd es1 = read_loop s st tok qd es2.
Proof.
  induction s as [| c s IH]; intros st tok qd es1 es2 Hst.
  - destruct st; reflexivity.
  - destruct st; simpl; try reflexivity.
    + destruct (mem c whitespace);
        [destruct (negb (tok =? "") || qd); [reflexivity |];
         apply IH; discriminate |].
      destruct (mem c escape); [reflexivity |].
      destruct (mem c wordchars); [apply IH; discriminate |].
      destruct (mem c quotes); apply IH; discriminate.
    + destruct (mem c whitespace);
        [destruct (negb (tok =? "") || qd); [reflexivity |];
         apply IH; discriminate |].
      destruct (mem c quotes); [apply IH; discriminate |].
      destruct (mem c escape); [reflexivity |].
      apply IH; discriminate.
    + destruct (Ascii.eqb c q); [apply IH; discriminate |].
      destruct (mem c escape && mem q escapedquotes); [reflexivity |].
      apply IH; discriminate.
    + now destruct (Hst e).
Qed.

(** A break at a blank inside [s] is the same break with more input
    behind. *)
Lemma read_loop_break_app (s u : list ascii) :
  forall st tok qd es b,
    read_loop s st tok qd es = Return b ->
    b_state b = InSpace ->
    read_loop (s ++ u) st tok qd es
    = Return (Broke (b_token b) (b_quoted b) InSpace (b_rest b ++ u)).
Proof.
  induction s as [| c s IH]; intros st tok qd es b H Hb.
  - destruct st; simpl in H; inversion H; subst; discriminate.
  - destruct st; simpl in H; simpl.
    + inversion H; subst. discriminate.
    + destruct (mem c whitespace).
      * destruct (negb (tok =? "") || qd); [inversion H; reflexivity |].
        now apply IH.
      * destruct (mem c escape); [now apply IH |].
        destruct (mem c wordchars); [now apply IH |].
        destruct (mem c quotes); now apply IH.
    + destruct (mem c whitespace).
      * destruct (negb (tok =? "") || qd); [inversion H; reflexivity |].
        now apply IH.
      * destruct (mem c quotes); [now apply IH |].
        destruct (mem c escape); now apply IH.
    + destruct (Ascii.eqb c q); [now apply IH |].
      destruct (mem c escape && mem q escapedquotes); now apply IH.
    + now apply IH.
Qed.

(** When the loop reaches the end of [s], a blank and more input behind
    [s] make it break at that blank if it holds a token, and read on past
    the blank if it holds none. *)
Lemma read_loop_end_app (s t : list ascii) :
  forall st tok qd es b,
    st <> AtEof -> es <> AtEof ->
    read_loop s st tok qd es = Return b ->
    b_state b = AtEof ->
    read_loop (s ++ " "%char :: t) st tok qd es
    = if negb (String.eqb (b_token b) "") || b_quoted b
      then Return (Broke (b_token b) (b_quoted b) InSpace t)
      else read_loop t InSpace (b_token b) (b_quoted b) InSpace.
Proof.
  induction s as [| c s IH]; intros st tok qd es b Hst Hes H Hb.
  - destruct st; simpl in H; try discriminate; try congruence;
      inversion H; subst; simpl;
      (destruct (negb (tok =? "") || qd); [reflexivity |]);
      apply read_loop_escapedstate; discriminate.
  - destruct st; simpl in H; simpl.
    + congruence.
    + destruct (mem c whitespace).
      * destruct (negb (tok =? "") || qd);
          [inversion H; subst; discriminate |].
        apply IH; auto; discriminate.
      * destruct (mem c escape); [apply IH; auto; discriminate |].
        destruct (mem c wordchars); [apply IH; auto; discriminate |].
        destruct (mem c quotes); apply IH; auto; discriminate.
    + destruct (mem c whitespace).
      * destruct (negb (tok =? "") || qd);
          [inversion H; subst; discriminate |].
        apply IH; auto; discriminate.
      * destruct (mem c quotes); [apply IH; auto; discriminate |].
        destruct (mem c escape); apply IH; auto; discriminate.
    + destruct (Ascii.eqb c q); [apply IH; auto; discriminate |].
      destruct (mem c escape && mem q escapedquotes);
        apply IH; auto; discriminate.
    + apply IH; [exact Hes | exact Hes | exact H | exact Hb].
Qed.

(** More fuel changes nothing. *)
Lemma tokens_fuel_more (f : nat) :
  forall n s st r,
    tokens f s st = Some r -> tokens (n + f) s st = Some r.
Proof.
  induction f as [| f IH]; intros n s st r H; [discriminate |].
  rewrite Nat.add_succ_r. cbn [tokens] in *.
  destruct (read_token s st) as [[[[t0 |] st'] rest] | e]; try exact H.
  destruct (tokens f rest st') as [r' |] eqn:E; [| discriminate].
  rewrite (IH n _ _ _ E). exact H.
Qed.

Lemma tokens_app (f1 : nat) :
  forall s x t f2 r,
    tokens f1 s InSpace = Some (Return x) ->
    tokens f2 t InSpace = Some r ->
    tokens (f1 + f2) (s ++ " "%char :: t) InSpace = Some (extend x r).
Proof.
  induction f1 as [| f1 IH]; intros s x t f2 r H1 H2; [discriminate |].
  cbn [tokens Nat.add] in *. unfold read_token in H1 |- *.
  destruct (read_loop s InSpace "" false InSpace) as [b | e] eqn:E;
    [| discriminate].
  assert (Hne : InSpace <> AtEof) by discriminate.
  destruct (@read_loop_progress s InSpace "" false InSpace b Hne Hne E)
    as [(Hs & Hl & Htok) | (Hs & Hr)].
  - rewrite (@read_loop_break_app s (" "%char :: t) _ _ _ _ _ E Hs).
    cbn [b_token b_quoted b_state b_rest].
    replace (negb (b_quoted b) && (b_token b =? "")) with false in *
      by (destruct (b_quoted b), (b_token b =? ""); simpl in *; congruence).
    rewrite Hs in H1.
    destruct (tokens f1 (b_rest b) InSpace) as [[x' | e'] |] eqn:E1;
      try discriminate.
    inversion H1; subst x.
    rewrite (IH _ _ _ _ _ E1 H2). destruct r; reflexivity.
  - rewrite (@read_loop_end_app s t _ _ _ _ _ Hne Hne E Hs).
    destruct (negb (b_quoted b) && (b_token b =? "")) eqn:En.
    + inversion H1; subst x.
      apply andb_true_iff in En as [Hq Ht].
      apply negb_true_iff in Hq. apply String.eqb_eq in Ht.
      rewrite Hq, Ht. cbn [negb orb String.eqb].
      pose proof (@tokens_fuel_more _ (S f1) _ _ _ H2) as Hm.
      cbn [tokens Nat.add] in Hm. unfold read_token in Hm.
      rewrite Hm. destruct r; reflexivity.
    + replace (negb (b_token b =? "") || b_quoted b) with true
        by (destruct (b_quoted b), (b_token b =? ""); simpl in *; congruence).
      cbn [b_token b_quoted b_state b_rest]. rewrite En.
      rewrite Hs, Hr in H1.
      destruct f1 as [| f1]; [discriminate |].
      cbn in H1. inversion H1; subst x.
      rewrite (@tokens_fuel_more _ (S f1) _ _ _ H2). destruct r; reflexivity.
Qed.

(** Splitting [a], a blank and [b], when [a] parses, gives the tokens of
    [a] followed by those of [b], or the error of [b]. *)
Lemma split_append (a b : string) (x : list string) :
  split a = Return x ->
  split (a ++ " " ++ b) = extend x (split b).
Proof.
  intros Ha.
  pose proof (split_tokens a) as H1. rewrite Ha in H1.
  pose proof (split_tokens b) as H2.
  pose proof (@tokens_app _ _ _ _ _ _ H1 H2) as H.
  pose proof (split_tokens (a ++ " " ++ b)) as H3.
  rewrite chars_append in H3.
  change (list_ascii_of_string (" " ++ b))
    with (" "%char :: list_ascii_of_string b) in H3.
  symmetry. eapply tokens_fuel_agree; eassumption.
Qed.

End ShlexAppend.

(** [X10] Flags added after a blank to an [extra_args] that parses add
    their tokens after its tokens: the split of [a], a blank and [b] is the
    tokens of [a] followed by those of [b], and raises the error of [b] if
    [b] does not parse; the lists of both [custom_scan] tools follow. *)
Theorem custom_scan_more_flags (url target a b : string) (x : list string) :
  Shlex.split a = Return x ->
  Shlex.split (a ++ " " ++ b) = extend x (Shlex.split b)
  /\ (forall y,
         Shlex.split b = Return y ->
         Dirsearch.custom_scan_args url (a ++ " " ++ b)
         = Return ([Some "-q"; Some "-t"; Some "20"; Some "-u"; Some url]
                   ++ map Some x ++ map Some y)
         /\ Nmap.custom_scan_args target (a ++ " " ++ b)
            = Return (Some "-Pn" :: map Some x ++ map Some y ++ [Some target]))
  /\ (forall e,
         Shlex.split b = Raise e ->
         Dirsearch.custom_scan_args url (a ++ " " ++ b) = Raise e
         /\ Nmap.custom_scan_args target (a ++ " " ++ b) = Raise e).
Proof.
  intros Ha. pose proof (split_append a b Ha) as H.
  split; [exact H |]. split.
  - intros y Hb. rewrite Hb in H.
    unfold Dirsearch.custom_scan_args, Nmap.custom_scan_args. rewrite H.
    cbn [extend]. rewrite map_app. split; [reflexivity |].
    unfold Nmap._add_pn. now rewrite <- app_assoc.
  - intros e Hb. rewrite Hb in H.
    unfold Dirsearch.custom_scan_args, Nmap.custom_scan_args. rewrite H.
    split; reflexivity.
Qed.

Lemma custom_scan_more_flags_witness :
  Shlex.split "-p 80,443" = Return ["-p"; "80,443"]
  /\ Shlex.split ("-p 80,443" ++ " " ++ "--script 'http-title'")
     = extend ["-p"; "80,443"] (Shlex.split "--script 'http-title'")
  /\ Shlex.split "--script 'http-title'" = Return ["--script"; "http-title"].
Proof.
  split; [reflexivity |]. split; [| reflexivity].
  exact (proj1 (@custom_scan_more_flags "http://h/" "10.0.0.1" "-p 80,443"
                  "--script 'http-title'" _ eq_refl)).
Defined.

(** ** The depth flag of [recursive_scan] *)


